(** * pa4/parser.py: statement dispatcher and operator-precedence expression parser

    A shallow embedding of [expect], [parse], [parse_expression] and [reduce]
    from [pa4/parser.py], followed by the properties of the parser that the
    specification states.

    Conventions of the embedding.
    - A Python list used as a stack ([append] / [pop] / [x[-1]]) is a Rocq list
      whose HEAD is the top of the stack; [len] is [length].
    - The token stream is the list of tokens not yet consumed.
    - A raised exception is a [Raise] outcome; the stream is threaded through
      both outcomes, because [ts.read()] calls made before a [raise] stay made. *)

From Stdlib Require Import String ZArith Bool Arith Lia List.
Import ListNotations.
Open Scope string_scope.
Open Scope list_scope.

(* ================================================================= *)
(** ** Data model *)

(** Modelled from the spec: the [TokenType] enumeration of the [tokens] module
    (section 3 of the specification lists the thirteen kinds). *)
Inductive TokenType : Type :=
  | PRINT | INTDEC | VARREF | ASSIGN | INTLIT
  | PLUS | MINUS | TIMES | DIVIDE | EXPONENT
  | LPAREN | RPAREN | EOF.

Scheme Equality for TokenType.

(** Modelled from the spec: the [Token] record of the [tokens] module, a kind
    plus three optional payload fields ([None] is Python's [None]). *)
Record Token : Type := mkToken {
  tokentype : TokenType;
  name : option string;
  lexeme : option string;
  intvalue : option Z
}.

(** Modelled from the spec: the node classes of the [acdcast] module. *)
Inductive ASTNode : Type :=
  | PrintNode (varname : string)
  | IntDclNode (varname : string)
  | AssignNode (target : string) (value : ASTNode)
  | IntLitNode (value : Z)
  | VarRefNode (varname : string)
  | BinOpNode (op : TokenType) (left right : ASTNode).

(** The message carried by a [ParseError].  Literal messages are kept as the
    source writes them; each f-string is a constructor holding the values that
    the source interpolates. *)
Inductive message : Type :=
  | Msg (text : string)
  | ExpectedButFound (expected found : TokenType)
      (* f"expected {expectedtype} but found {tok.tokentype}" *)
  | ExpectedStatement (found : TokenType)
      (* f"expected TokenType.PRINT, TokenType.INTDCL/INTDEC, or TokenType.VARREF; got {..}" *)
  | TwoOperands (operator : TokenType)
      (* f"expected two operands for operator {..}" *)
  | UnexpectedInExpression (tok : Token).
      (* f"unexpected token in expression: {tok}" *)

(** Exceptions.  [ParseError] is the parser's own; [KeyError] and [IndexError]
    are what a dictionary lookup and a [pop] on an empty list raise in Python;
    [EndOfStream] stands for a [peek] or [read] on an exhausted stream. *)
Inductive exn : Type :=
  | ParseError (m : message)
  | KeyError (key : TokenType)
  | IndexError
  | EndOfStream.

Inductive result (A : Type) : Type :=
  | Ok (a : A)
  | Raise (e : exn).
Arguments Ok {A} a.
Arguments Raise {A} e.

(* ================================================================= *)
(** ** The token stream *)

(** Modelled from the spec: the [TokenStream] cursor of the [tokenstream]
    module, with [peek] (lookahead without consuming) and [read] (consume and
    return).  The state is the list of tokens still to be read. *)
Definition TokenStream : Type := list Token.

Definition M (A : Type) : Type := TokenStream -> result A * TokenStream.

Definition ret {A} (a : A) : M A := fun ts => (Ok a, ts).

Definition raise {A} (e : exn) : M A := fun ts => (Raise e, ts).

Definition bind {A B} (c : M A) (k : A -> M B) : M B :=
  fun ts =>
    match c ts with
    | (Ok a, ts') => k a ts'
    | (Raise e, ts') => (Raise e, ts')
    end.

Notation "x <- c ;; k" := (bind c (fun x => k))
  (at level 61, c at next level, right associativity).
Notation "c ;;; k" := (bind c (fun _ => k))
  (at level 61, right associativity).

Definition peek : M Token :=
  fun ts =>
    match ts with
    | [] => (Raise EndOfStream, ts)
    | tok :: _ => (Ok tok, ts)
    end.

Definition read : M Token :=
  fun ts =>
    match ts with
    | [] => (Raise EndOfStream, ts)
    | tok :: rest => (Ok tok, rest)
    end.

(* ================================================================= *)
(** ** [expect] *)

Definition expect (expectedtype : TokenType) : M Token :=
  tok <- peek ;;
  if TokenType_beq (tokentype tok) expectedtype
  then read
  else raise (ParseError (ExpectedButFound expectedtype (tokentype tok))).

(* ================================================================= *)
(** ** Tables of [parse_expression] *)

(** [precedence] and [leftassoc] are dictionaries keyed by the five operator
    kinds; a lookup of another key raises [KeyError], here [None]. *)
Definition precedence (t : TokenType) : option nat :=
  match t with
  | EXPONENT => Some 3
  | TIMES => Some 2
  | DIVIDE => Some 2
  | PLUS => Some 1
  | MINUS => Some 1
  | _ => None
  end.

Definition leftassoc (t : TokenType) : option bool :=
  match t with
  | EXPONENT => Some false
  | TIMES => Some true
  | DIVIDE => Some true
  | PLUS => Some true
  | MINUS => Some true
  | _ => None
  end.

(** [t in operatortypes] *)
Definition operatortypes (t : TokenType) : bool :=
  match t with
  | PLUS | MINUS | TIMES | DIVIDE | EXPONENT => true
  | _ => false
  end.

(** The follow-token test made after a literal and after a variable reference:
    [(next.tokentype in operatortypes) or (next.tokentype == RPAREN) or
    (next.tokentype == EOF)]. *)
Definition follows_operand (t : TokenType) : bool :=
  operatortypes t || TokenType_beq t RPAREN || TokenType_beq t EOF.

(* ================================================================= *)
(** ** [reduce] *)

Definition reduce (opstack : list TokenType) (valstack : list ASTNode)
  : result (list TokenType * list ASTNode) :=
  match opstack with
  | [] => Raise (ParseError (Msg "mismatched parentheses"))
  | op :: opstack' =>
      match valstack with
      | [] => Raise (ParseError (TwoOperands op))
      | [_] => Raise (ParseError (Msg "expected operand or lparen after operator"))
      | right_ :: left_ :: valstack' =>
          Ok (opstack', BinOpNode op left_ right_ :: valstack')
      end
  end.

(* ================================================================= *)
(** ** The loops of [parse_expression]

    Every inner loop pops the operator stack once per iteration through
    [reduce], so each is a structural recursion on the operator stack: the
    recursive call is made on the stack below the top, which is the stack
    that [reduce] hands back (lemma [reduce_opstack] below). *)

(** The [while True] loop of the RPAREN branch. *)
Fixpoint close_paren (reduced : bool) (opstack : list TokenType)
    (valstack : list ASTNode) (lparen_depths : list nat)
  : result (list TokenType * list ASTNode * list nat) :=
  match opstack with
  | [] => Raise (ParseError (Msg "mismatched parentheses"))
  | top :: below =>
      if TokenType_beq top LPAREN then
        match lparen_depths with
        | [] => Raise IndexError
        | _ :: lparen_depths' =>
            if negb reduced
            then Raise (ParseError
                          (Msg "expected lparen, intlit, or varref after lparen"))
            else Ok (below, valstack, lparen_depths')
        end
      else
        match reduce opstack valstack with
        | Raise e => Raise e
        | Ok (_, valstack') => close_paren true below valstack' lparen_depths
        end
  end.

(** The [while len(opstack) > 0 and opstack[-1] in operatortypes] loop of the
    operator branch. *)
Fixpoint reduce_while (incoming : TokenType) (opstack : list TokenType)
    (valstack : list ASTNode)
  : result (list TokenType * list ASTNode) :=
  match opstack with
  | [] => Ok (opstack, valstack)
  | top :: below =>
      if operatortypes top then
        match precedence top with
        | None => Raise (KeyError top)
        | Some top_prec =>
            match precedence incoming with
            | None => Raise (KeyError incoming)
            | Some inc_prec =>
                if (inc_prec <? top_prec)%nat then
                  match reduce opstack valstack with
                  | Raise e => Raise e
                  | Ok (_, valstack') => reduce_while incoming below valstack'
                  end
                else if (top_prec =? inc_prec)%nat then
                  match leftassoc top with
                  | None => Raise (KeyError top)
                  | Some true =>
                      match reduce opstack valstack with
                      | Raise e => Raise e
                      | Ok (_, valstack') =>
                          reduce_while incoming below valstack'
                      end
                  | Some false => Ok (opstack, valstack)
                  end
                else Ok (opstack, valstack)
            end
        end
      else Ok (opstack, valstack)
  end.

(** The [while len(opstack) > 0] loop that runs once EOF is the lookahead. *)
Fixpoint drain (opstack : list TokenType) (valstack : list ASTNode)
  : result (list ASTNode) :=
  match opstack with
  | [] => Ok valstack
  | top :: below =>
      if TokenType_beq top LPAREN
      then Raise (ParseError (Msg "mismatched parentheses"))
      else
        match reduce opstack valstack with
        | Raise e => Raise e
        | Ok (_, valstack') => drain below valstack'
        end
  end.

(** What follows the main loop: drain, then the one-result check. *)
Definition finish (opstack : list TokenType) (valstack : list ASTNode)
  : result ASTNode :=
  match drain opstack valstack with
  | Raise e => Raise e
  | Ok [node] => Ok node
  | Ok _ => Raise (ParseError (Msg "expression did not reduce to one AST"))
  end.

(** The guard of the operator branch against an operator that directly
    follows an open parenthesis. *)
Definition operator_after_lparen (opstack : list TokenType)
    (valstack : list ASTNode) (lparen_depths : list nat) : bool :=
  match opstack with
  | top :: _ =>
      TokenType_beq top LPAREN &&
      match lparen_depths with
      | depth :: _ => (length valstack =? depth)%nat
      | [] => false
      end
  | [] => false
  end.

(** The main loop.  Each iteration peeks at the head of the remaining tokens
    and, unless it is EOF, reads exactly that token, so the loop is a
    structural recursion on the stream: [tok] is [ts.peek()] and [rest] is the
    stream after [ts.read()]. *)
Fixpoint parse_loop (ts : TokenStream) (opstack : list TokenType)
    (valstack : list ASTNode) (lparen_depths : list nat) {struct ts}
  : result ASTNode * TokenStream :=
  match ts with
  | [] => (Raise EndOfStream, ts)
  | tok :: rest =>
      if TokenType_beq (tokentype tok) EOF then
        (finish opstack valstack, ts)
      else if TokenType_beq (tokentype tok) INTLIT then
        match intvalue tok with
        | None => (Raise (ParseError (Msg "malformed INTLIT token")), rest)
        | Some v =>
            match rest with
            | [] => (Raise EndOfStream, rest)
            | next :: _ =>
                if follows_operand (tokentype next)
                then parse_loop rest opstack (IntLitNode v :: valstack)
                       lparen_depths
                else (Raise (ParseError
                        (Msg "expected operator or rparen after int literal")),
                      rest)
            end
        end
      else if TokenType_beq (tokentype tok) VARREF then
        let varname := match lexeme tok with
                       | Some s => s
                       | None => EmptyString
                       end in
        match rest with
        | [] => (Raise EndOfStream, rest)
        | next :: _ =>
            if follows_operand (tokentype next)
            then parse_loop rest opstack (VarRefNode varname :: valstack)
                   lparen_depths
            else (Raise (ParseError
                    (Msg "expected operator or rparen after variable reference")),
                  rest)
        end
      else if TokenType_beq (tokentype tok) LPAREN then
        parse_loop rest (LPAREN :: opstack) valstack
          (length valstack :: lparen_depths)
      else if TokenType_beq (tokentype tok) RPAREN then
        match close_paren false opstack valstack lparen_depths with
        | Raise e => (Raise e, rest)
        | Ok (opstack', valstack', lparen_depths') =>
            parse_loop rest opstack' valstack' lparen_depths'
        end
      else if operatortypes (tokentype tok) then
        match valstack with
        | [] => (Raise (ParseError (TwoOperands (tokentype tok))), rest)
        | _ :: _ =>
            if operator_after_lparen opstack valstack lparen_depths
            then (Raise (ParseError
                    (Msg "expected lparen, intlit, or varref after lparen")),
                  rest)
            else
              match reduce_while (tokentype tok) opstack valstack with
              | Raise e => (Raise e, rest)
              | Ok (opstack', valstack') =>
                  parse_loop rest (tokentype tok :: opstack') valstack'
                    lparen_depths
              end
        end
      else (Raise (ParseError (UnexpectedInExpression tok)), ts)
  end.

Definition parse_expression : M ASTNode :=
  fun ts => parse_loop ts [] [] [].

(* ================================================================= *)
(** ** [parse] *)

Definition parse : M ASTNode :=
  t <- peek ;;
  if TokenType_beq (tokentype t) PRINT then
    read ;;;
    match name t with
    | None => raise (ParseError (Msg "malformed PRINT token"))
    | Some n => expect EOF ;;; ret (PrintNode n)
    end
  else if TokenType_beq (tokentype t) INTDEC then
    read ;;;
    match name t with
    | None => raise (ParseError (Msg "malformed INTDEC token"))
    | Some n => expect EOF ;;; ret (IntDclNode n)
    end
  else if TokenType_beq (tokentype t) VARREF then
    lhs <- read ;;
    expect ASSIGN ;;;
    rhs <- parse_expression ;;
    match lexeme lhs with
    | None => raise (ParseError (Msg "malformed VARREF token on LHS"))
    | Some x => expect EOF ;;; ret (AssignNode x rhs)
    end
  else raise (ParseError (ExpectedStatement (tokentype t))).

(* ================================================================= *)
(** ** Token constructors used in examples *)

Definition tk (k : TokenType) : Token := mkToken k None None None.
Definition intlit (v : Z) : Token := mkToken INTLIT None None (Some v).
Definition varref (x : string) : Token := mkToken VARREF None (Some x) None.
Definition varref_absent : Token := mkToken VARREF None None None.
Definition print_tok (x : string) : Token := mkToken PRINT (Some x) None None.
Definition intdec_tok (x : string) : Token := mkToken INTDEC (Some x) None None.

(* ================================================================= *)
(** ** Instrumented loops: the calls made to [reduce]

    The same loops once more, each also returning the arguments of every call
    it makes to [reduce], in call order.  The instrumented functions are ghost
    code: [parse_loop_traced_erase] shows that forgetting the log gives
    back [parse_expression]. *)

Definition reduce_call : Type := (list TokenType * list ASTNode)%type.

Fixpoint close_paren_traced (reduced : bool) (opstack : list TokenType)
    (valstack : list ASTNode) (lparen_depths : list nat)
  : result (list TokenType * list ASTNode * list nat) * list reduce_call :=
  match opstack with
  | [] => (Raise (ParseError (Msg "mismatched parentheses")), [])
  | top :: below =>
      if TokenType_beq top LPAREN then
        match lparen_depths with
        | [] => (Raise IndexError, [])
        | _ :: lparen_depths' =>
            if negb reduced
            then (Raise (ParseError
                           (Msg "expected lparen, intlit, or varref after lparen")),
                  [])
            else (Ok (below, valstack, lparen_depths'), [])
        end
      else
        match reduce opstack valstack with
        | Raise e => (Raise e, [(opstack, valstack)])
        | Ok (_, valstack') =>
            let (r, calls) :=
              close_paren_traced true below valstack' lparen_depths in
            (r, (opstack, valstack) :: calls)
        end
  end.

Fixpoint reduce_while_traced (incoming : TokenType) (opstack : list TokenType)
    (valstack : list ASTNode)
  : result (list TokenType * list ASTNode) * list reduce_call :=
  match opstack with
  | [] => (Ok (opstack, valstack), [])
  | top :: below =>
      if operatortypes top then
        match precedence top with
        | None => (Raise (KeyError top), [])
        | Some top_prec =>
            match precedence incoming with
            | None => (Raise (KeyError incoming), [])
            | Some inc_prec =>
                if (inc_prec <? top_prec)%nat then
                  match reduce opstack valstack with
                  | Raise e => (Raise e, [(opstack, valstack)])
                  | Ok (_, valstack') =>
                      let (r, calls) :=
                        reduce_while_traced incoming below valstack' in
                      (r, (opstack, valstack) :: calls)
                  end
                else if (top_prec =? inc_prec)%nat then
                  match leftassoc top with
                  | None => (Raise (KeyError top), [])
                  | Some true =>
                      match reduce opstack valstack with
                      | Raise e => (Raise e, [(opstack, valstack)])
                      | Ok (_, valstack') =>
                          let (r, calls) :=
                            reduce_while_traced incoming below valstack' in
                          (r, (opstack, valstack) :: calls)
                      end
                  | Some false => (Ok (opstack, valstack), [])
                  end
                else (Ok (opstack, valstack), [])
            end
        end
      else (Ok (opstack, valstack), [])
  end.

Fixpoint drain_traced (opstack : list TokenType) (valstack : list ASTNode)
  : result (list ASTNode) * list reduce_call :=
  match opstack with
  | [] => (Ok valstack, [])
  | top :: below =>
      if TokenType_beq top LPAREN
      then (Raise (ParseError (Msg "mismatched parentheses")), [])
      else
        match reduce opstack valstack with
        | Raise e => (Raise e, [(opstack, valstack)])
        | Ok (_, valstack') =>
            let (r, calls) := drain_traced below valstack' in
            (r, (opstack, valstack) :: calls)
        end
  end.

Definition finish_traced (opstack : list TokenType) (valstack : list ASTNode)
  : result ASTNode * list reduce_call :=
  match drain_traced opstack valstack with
  | (Raise e, calls) => (Raise e, calls)
  | (Ok [node], calls) => (Ok node, calls)
  | (Ok _, calls) =>
      (Raise (ParseError (Msg "expression did not reduce to one AST")), calls)
  end.

Fixpoint parse_loop_traced (ts : TokenStream) (opstack : list TokenType)
    (valstack : list ASTNode) (lparen_depths : list nat) {struct ts}
  : result ASTNode * TokenStream * list reduce_call :=
  match ts with
  | [] => (Raise EndOfStream, ts, [])
  | tok :: rest =>
      if TokenType_beq (tokentype tok) EOF then
        let (r, calls) := finish_traced opstack valstack in (r, ts, calls)
      else if TokenType_beq (tokentype tok) INTLIT then
        match intvalue tok with
        | None => (Raise (ParseError (Msg "malformed INTLIT token")), rest, [])
        | Some v =>
            match rest with
            | [] => (Raise EndOfStream, rest, [])
            | next :: _ =>
                if follows_operand (tokentype next)
                then parse_loop_traced rest opstack (IntLitNode v :: valstack)
                       lparen_depths
                else (Raise (ParseError
                        (Msg "expected operator or rparen after int literal")),
                      rest, [])
            end
        end
      else if TokenType_beq (tokentype tok) VARREF then
        let varname := match lexeme tok with
                       | Some s => s
                       | None => EmptyString
                       end in
        match rest with
        | [] => (Raise EndOfStream, rest, [])
        | next :: _ =>
            if follows_operand (tokentype next)
            then parse_loop_traced rest opstack (VarRefNode varname :: valstack)
                   lparen_depths
            else (Raise (ParseError
                    (Msg "expected operator or rparen after variable reference")),
                  rest, [])
        end
      else if TokenType_beq (tokentype tok) LPAREN then
        parse_loop_traced rest (LPAREN :: opstack) valstack
          (length valstack :: lparen_depths)
      else if TokenType_beq (tokentype tok) RPAREN then
        match close_paren_traced false opstack valstack lparen_depths with
        | (Raise e, calls) => (Raise e, rest, calls)
        | (Ok (opstack', valstack', lparen_depths'), calls) =>
            let '(r, ts', calls') :=
              parse_loop_traced rest opstack' valstack' lparen_depths' in
            (r, ts', calls ++ calls')
        end
      else if operatortypes (tokentype tok) then
        match valstack with
        | [] => (Raise (ParseError (TwoOperands (tokentype tok))), rest, [])
        | _ :: _ =>
            if operator_after_lparen opstack valstack lparen_depths
            then (Raise (ParseError
                    (Msg "expected lparen, intlit, or varref after lparen")),
                  rest, [])
            else
              match reduce_while_traced (tokentype tok) opstack valstack with
              | (Raise e, calls) => (Raise e, rest, calls)
              | (Ok (opstack', valstack'), calls) =>
                  let '(r, ts', calls') :=
                    parse_loop_traced rest (tokentype tok :: opstack') valstack'
                      lparen_depths in
                  (r, ts', calls ++ calls')
              end
        end
      else (Raise (ParseError (UnexpectedInExpression tok)), ts, [])
  end.

Definition parse_expression_traced (ts : TokenStream)
  : result ASTNode * TokenStream * list reduce_call :=
  parse_loop_traced ts [] [] [].

(* ================================================================= *)
(** ** Predicates and expected trees used in the statements *)

(** Every [BinOpNode] of the tree carries one of the five operator kinds. *)
Fixpoint binops_ok (node : ASTNode) : bool :=
  match node with
  | BinOpNode op l r => operatortypes op && binops_ok l && binops_ok r
  | AssignNode _ value => binops_ok value
  | _ => true
  end.

(** What the operator stack may hold: LPAREN markers and operator kinds. *)
Definition marker_ok (t : TokenType) : bool :=
  TokenType_beq t LPAREN || operatortypes t.

(** The two stacks are well formed: the operator stack holds markers and
    operators only, and every tree on the value stack is well formed. *)
Definition stacks_ok (opstack : list TokenType) (valstack : list ASTNode)
  : Prop :=
  forallb marker_ok opstack = true /\ forallb binops_ok valstack = true.

(** The precondition that a call to [reduce] is claimed to meet. *)
Definition top_is_operator (c : reduce_call) : bool :=
  match fst c with
  | top :: _ => operatortypes top
  | [] => false
  end.

(** The tokens [x1 ^ x2 ^ ... ^ xn ^ last EOF]. *)
Definition exponent_chain (xs : list Z) (last : Z) : TokenStream :=
  flat_map (fun x => [intlit x; tk EXPONENT]) xs ++ [intlit last; tk EOF].

(** [x1 ^ (x2 ^ (... ^ last))] *)
Definition nest_right (xs : list Z) (last : Z) : ASTNode :=
  fold_right (fun x acc => BinOpNode EXPONENT (IntLitNode x) acc)
    (IntLitNode last) xs.

(** The outcome is a failure raised by [expect]. *)
Definition from_expect {A} (r : result A) : bool :=
  match r with
  | Raise (ParseError (ExpectedButFound _ _)) => true
  | _ => false
  end.

(** The outcome is a tree or a [ParseError]: no other exception. *)
Definition only_parse_errors {A} (r : result A) : bool :=
  match r with
  | Ok _ => true
  | Raise (ParseError _) => true
  | Raise _ => false
  end.

(** Number of LPAREN markers on the operator stack. *)
Definition lparens (opstack : list TokenType) : nat :=
  length (filter (fun t => TokenType_beq t LPAREN) opstack).

(** The stream holds an EOF token. *)
Definition terminated (ts : TokenStream) : Prop :=
  Exists (fun t => tokentype t = EOF) ts.

(** The operators of one left-associative precedence level [p]. *)
Definition level (p : nat) (o : TokenType) : Prop :=
  precedence o = Some p /\ leftassoc o = Some true.

(** The tokens [first o1 x1 o2 x2 ... on xn EOF]. *)
Definition operator_chain (first : Z) (steps : list (TokenType * Z))
  : TokenStream :=
  intlit first :: flat_map (fun s => [tk (fst s); intlit (snd s)]) steps
    ++ [tk EOF].

(** [((first o1 x1) o2 x2) ... on xn] *)
Definition nest_left (first : Z) (steps : list (TokenType * Z)) : ASTNode :=
  fold_left (fun acc s => BinOpNode (fst s) acc (IntLitNode (snd s)))
    steps (IntLitNode first).

(* ================================================================= *)
(** ** Definitions used to state further properties of the parser *)

(** The operators of [popped] (top of the stack first) folded into the value
    stack, one call to [reduce] each; [None] when a call raises. *)
Fixpoint reduce_all (popped : list TokenType) (valstack : list ASTNode)
  : option (list ASTNode) :=
  match popped with
  | [] => Some valstack
  | _ :: more =>
      match reduce popped valstack with
      | Ok (_, valstack') => reduce_all more valstack'
      | Raise _ => None
      end
  end.

(** The reduce decision of the operator branch: [top] is folded before
    [incoming] is pushed. *)
Definition reduces_before (top incoming : TokenType) : bool :=
  match precedence top, precedence incoming, leftassoc top with
  | Some top_prec, Some inc_prec, Some left_ =>
      (inc_prec <? top_prec)%nat || ((top_prec =? inc_prec)%nat && left_)
  | _, _, _ => false
  end.

(** Leaves of a tree, left to right. *)
Fixpoint leaves (node : ASTNode) : list ASTNode :=
  match node with
  | BinOpNode _ l r => leaves l ++ leaves r
  | _ => [node]
  end.

(** Leaves of the trees of a value stack, oldest tree first. *)
Definition stack_leaves (valstack : list ASTNode) : list ASTNode :=
  flat_map leaves (rev valstack).

Fixpoint count_binops (node : ASTNode) : nat :=
  match node with
  | BinOpNode _ l r => S (count_binops l + count_binops r)
  | _ => 0
  end.

Definition stack_binops (valstack : list ASTNode) : nat :=
  list_sum (map count_binops valstack).

(** The tokens in front of the first EOF token. *)
Fixpoint before_eof (ts : TokenStream) : list Token :=
  match ts with
  | [] => []
  | tok :: rest =>
      if TokenType_beq (tokentype tok) EOF then [] else tok :: before_eof rest
  end.

(** The leaf that the main loop pushes for an operand token. *)
Definition operand_node (tok : Token) : list ASTNode :=
  if TokenType_beq (tokentype tok) INTLIT then
    match intvalue tok with
    | Some v => [IntLitNode v]
    | None => []
    end
  else if TokenType_beq (tokentype tok) VARREF then
    [VarRefNode match lexeme tok with
                | Some s => s
                | None => EmptyString
                end]
  else [].

Definition operand_nodes (ts : list Token) : list ASTNode :=
  flat_map operand_node ts.

(** Number of tokens whose kind satisfies [p]. *)
Definition count_kind (p : TokenType -> bool) (ts : list Token) : nat :=
  length (filter (fun t => p (tokentype t)) ts).

Definition is_operand (t : TokenType) : bool :=
  TokenType_beq t INTLIT || TokenType_beq t VARREF.

Definition is_lparen (t : TokenType) : bool := TokenType_beq t LPAREN.

Definition is_rparen (t : TokenType) : bool := TokenType_beq t RPAREN.

(** Operator entries of the operator stack (everything but LPAREN markers). *)
Definition pending (opstack : list TokenType) : nat :=
  length (filter (fun t => negb (TokenType_beq t LPAREN)) opstack).

(** Expression trees: literal and variable leaves, operator nodes. *)
Fixpoint expr_tree (node : ASTNode) : bool :=
  match node with
  | IntLitNode _ => true
  | VarRefNode _ => true
  | BinOpNode op l r => operatortypes op && expr_tree l && expr_tree r
  | _ => false
  end.

Definition is_leaf (node : ASTNode) : bool :=
  match node with
  | IntLitNode _ => true
  | VarRefNode _ => true
  | _ => false
  end.

(** The token of a leaf. *)
Definition leaf_token (node : ASTNode) : Token :=
  match node with
  | IntLitNode v => intlit v
  | VarRefNode x => varref x
  | _ => tk EOF
  end.

(** A tree written out with one pair of parentheses around every operator
    node. *)
Fixpoint unparse (node : ASTNode) : list Token :=
  match node with
  | BinOpNode op l r =>
      tk LPAREN :: unparse l ++ tk op :: unparse r ++ [tk RPAREN]
  | _ => [leaf_token node]
  end.

(** A tree written out in infix order without parentheses. *)
Fixpoint infix (node : ASTNode) : list Token :=
  match node with
  | BinOpNode op l r => infix l ++ tk op :: infix r
  | _ => [leaf_token node]
  end.

(** The tokens [first o1 x1 o2 x2 ... on xn] of an expression without
    parentheses, operands given as leaves. *)
Definition flat_tokens (first : ASTNode) (steps : list (TokenType * ASTNode))
  : list Token :=
  leaf_token first
    :: flat_map (fun s => [tk (fst s); leaf_token (snd s)]) steps.

(** Under an operator [op], a left child with operator [o] must be one that
    the operator branch folds before it pushes [op]. *)
Definition left_ok (op : TokenType) (l : ASTNode) : bool :=
  match l with
  | BinOpNode o _ _ => reduces_before o op
  | _ => true
  end.

(** Under an operator [op], a right child with operator [o] must be one that
    was pushed over [op] without folding [op]. *)
Definition right_ok (op : TokenType) (r : ASTNode) : bool :=
  match r with
  | BinOpNode o _ _ => negb (reduces_before op o)
  | _ => true
  end.

(** A tree nested as the two tables demand, at every operator node. *)
Fixpoint nested_by_tables (node : ASTNode) : bool :=
  match node with
  | BinOpNode op l r =>
      left_ok op l && right_ok op r
      && nested_by_tables l && nested_by_tables r
  | _ => true
  end.

(** The state of the two stacks while an expression without parentheses is
    read: one value more than operators, every value a well-nested expression
    tree fit to become the right operand of the operator at its level and the
    left operand of the operator above, every operator pushed over the one
    below without folding it. *)
Fixpoint spine (opstack : list TokenType) (valstack : list ASTNode) : bool :=
  match opstack, valstack with
  | [], [v] => nested_by_tables v && expr_tree v
  | o :: below, v :: ((w :: _) as rest) =>
      operatortypes o && nested_by_tables v && expr_tree v
      && right_ok o v && left_ok o w
      && match below with
         | o' :: _ => negb (reduces_before o' o)
         | [] => true
         end
      && spine below rest
  | _, _ => false
  end.

(** The tokens that the two stacks stand for, in input order. *)
Fixpoint stack_infix (opstack : list TokenType) (valstack : list ASTNode)
  : list Token :=
  match valstack with
  | [] => []
  | v :: rest =>
      match opstack with
      | [] => infix v
      | o :: below => stack_infix below rest ++ tk o :: infix v
      end
  end.

(** The steps of an expression without parentheses: operator kinds and
    leaves. *)
Definition flat_steps (steps : list (TokenType * ASTNode)) : Prop :=
  Forall (fun s => operatortypes (fst s) = true /\ is_leaf (snd s) = true)
    steps.

(** The outcome is not one of Python's own exceptions. *)
Definition no_python_error {A} (r : result A) : bool :=
  match r with
  | Raise (KeyError _) => false
  | Raise IndexError => false
  | _ => true
  end.

(** The outcome is not a read past the end of the stream. *)
Definition no_end_of_stream {A} (r : result A) : bool :=
  match r with
  | Raise EndOfStream => false
  | _ => true
  end.

(* ================================================================= *)
(** * Properties *)

(** ** The statement forms on the specification's examples *)

Example parse_expression_one :
  parse_expression [intlit 1; tk EOF] = (Ok (IntLitNode 1), [tk EOF]).
Proof. reflexivity. Qed.

Example parse_print_x :
  parse [print_tok "x"; tk EOF] = (Ok (PrintNode "x"), []).
Proof. reflexivity. Qed.

Example parse_int_x :
  parse [intdec_tok "x"; tk EOF] = (Ok (IntDclNode "x"), []).
Proof. reflexivity. Qed.

(** ** Basic facts about [reduce] and the tables *)

(** [reduce] pops exactly the top of the operator stack. *)
Lemma reduce_opstack :
  forall top below valstack opstack' valstack',
    reduce (top :: below) valstack = Ok (opstack', valstack') ->
    opstack' = below.
Proof.
  intros top below valstack opstack' valstack' H.
  unfold reduce in H.
  destruct valstack as [|r [|l vs]]; try discriminate.
  now inversion H.
Qed.

(** The only result [reduce] can give on success. *)
Lemma reduce_ok_inv :
  forall opstack valstack opstack' valstack',
    reduce opstack valstack = Ok (opstack', valstack') ->
    exists op r l vs,
      opstack = op :: opstack' /\ valstack = r :: l :: vs /\
      valstack' = BinOpNode op l r :: vs.
Proof.
  intros [|op below] valstack opstack' valstack' H; simpl in H.
  - discriminate.
  - destruct valstack as [|r [|l vs]]; try discriminate.
    inversion H; subst. now exists op, r, l, vs.
Qed.

Lemma TokenType_beq_refl : forall t, TokenType_beq t t = true.
Proof. now destruct t. Qed.

Lemma TokenType_beq_eq : forall a b, TokenType_beq a b = true <-> a = b.
Proof.
  intros a b; split.
  - apply internal_TokenType_dec_bl.
  - intros ->. apply TokenType_beq_refl.
Qed.

Lemma TokenType_beq_neq : forall a b, TokenType_beq a b = false <-> a <> b.
Proof.
  intros a b; split.
  - intros H E. apply TokenType_beq_eq in E. congruence.
  - intros H. destruct (TokenType_beq a b) eqn:E; [|reflexivity].
    apply TokenType_beq_eq in E. contradiction.
Qed.

(** [follows_operand] spelled out kind by kind. *)
Lemma follows_operand_false :
  forall t,
    operatortypes t = false -> t <> RPAREN -> t <> EOF ->
    follows_operand t = false.
Proof.
  intros t Hop Hr He. unfold follows_operand. rewrite Hop. simpl.
  apply TokenType_beq_neq in Hr, He. now rewrite Hr, He.
Qed.

(* ================================================================= *)
(** ** C1: parenthesised operands *)

(** C1 (code defect).  The specification asks that [(((1)))] parse to the
    same tree as [1], that is [IntLitNode 1].  The code parses [1] to
    [IntLitNode 1] but rejects [(((1)))]: the RPAREN branch raises
    "expected lparen, intlit, or varref after lparen" whenever no [reduce]
    happened since the matching LPAREN, which is the case for every group
    that holds a single operand.  The same happens for [(v)] with any literal
    [v] from any state of the stacks, and for a doubled pair of parentheses
    around an expression that parses, such as [((1+2))]. *)
Theorem parenthesised_literal_rejected :
  parse_expression [intlit 1; tk EOF] = (Ok (IntLitNode 1), [tk EOF]) /\
  parse_expression
    [tk LPAREN; tk LPAREN; tk LPAREN; intlit 1;
     tk RPAREN; tk RPAREN; tk RPAREN; tk EOF]
  = (Raise (ParseError (Msg "expected lparen, intlit, or varref after lparen")),
     [tk RPAREN; tk RPAREN; tk EOF]) /\
  (forall v rest opstack valstack lparen_depths,
      parse_loop (tk LPAREN :: intlit v :: tk RPAREN :: rest)
        opstack valstack lparen_depths
      = (Raise (ParseError
                  (Msg "expected lparen, intlit, or varref after lparen")),
         rest)) /\
  parse_expression
    [tk LPAREN; intlit 1; tk PLUS; intlit 2; tk RPAREN; tk EOF]
  = (Ok (BinOpNode PLUS (IntLitNode 1) (IntLitNode 2)), [tk EOF]) /\
  parse_expression
    [tk LPAREN; tk LPAREN; intlit 1; tk PLUS; intlit 2;
     tk RPAREN; tk RPAREN; tk EOF]
  = (Raise (ParseError (Msg "expected lparen, intlit, or varref after lparen")),
     [tk EOF]).
Proof.
  repeat split; try reflexivity.
Qed.

(* ================================================================= *)
(** ** C3: precedence *)

(** C3.  The precedence table is EXPONENT = 3, TIMES = DIVIDE = 2,
    PLUS = MINUS = 1.  For any two operators [lo] and [hi] with the
    precedence of [lo] strictly below that of [hi], and any literals,
    [a lo b hi c] parses as [a lo (b hi c)] and [a hi b lo c] parses as
    [(a hi b) lo c]; in particular [1 + 2 * 3] and [2 * 3 + 1] parse as the
    specification says. *)
Theorem precedence_resolution :
  (precedence EXPONENT = Some 3 /\
   precedence TIMES = Some 2 /\ precedence DIVIDE = Some 2 /\
   precedence PLUS = Some 1 /\ precedence MINUS = Some 1) /\
  (forall lo hi pl ph a b c,
      precedence lo = Some pl -> precedence hi = Some ph -> pl < ph ->
      parse_expression
        [intlit a; tk lo; intlit b; tk hi; intlit c; tk EOF]
      = (Ok (BinOpNode lo (IntLitNode a)
               (BinOpNode hi (IntLitNode b) (IntLitNode c))), [tk EOF]) /\
      parse_expression
        [intlit a; tk hi; intlit b; tk lo; intlit c; tk EOF]
      = (Ok (BinOpNode lo (BinOpNode hi (IntLitNode a) (IntLitNode b))
               (IntLitNode c)), [tk EOF])) /\
  parse_expression
    [intlit 1; tk PLUS; intlit 2; tk TIMES; intlit 3; tk EOF]
  = (Ok (BinOpNode PLUS (IntLitNode 1)
           (BinOpNode TIMES (IntLitNode 2) (IntLitNode 3))), [tk EOF]) /\
  parse_expression
    [intlit 2; tk TIMES; intlit 3; tk PLUS; intlit 1; tk EOF]
  = (Ok (BinOpNode PLUS (BinOpNode TIMES (IntLitNode 2) (IntLitNode 3))
           (IntLitNode 1)), [tk EOF]).
Proof.
  split; [repeat split|split; [|split; reflexivity]].
  intros lo hi pl ph a b c Hlo Hhi Hlt.
  destruct lo; simpl in Hlo; try discriminate;
    destruct hi; simpl in Hhi; try discriminate;
    inversion Hlo; inversion Hhi; subst; try lia;
    split; reflexivity.
Qed.

Lemma precedence_resolution_witness :
  parse_expression
    [intlit 4; tk MINUS; intlit 5; tk EXPONENT; intlit 6; tk EOF]
  = (Ok (BinOpNode MINUS (IntLitNode 4)
           (BinOpNode EXPONENT (IntLitNode 5) (IntLitNode 6))), [tk EOF]).
Proof.
  destruct precedence_resolution as [_ [H _]].
  apply (H MINUS EXPONENT 1 3 4%Z 5%Z 6%Z); [reflexivity|reflexivity|lia].
Defined.

(* ================================================================= *)
(** ** C4: associativity *)

Section Chains.

(** *** Right-nested exponent chains *)

(** An incoming EXPONENT never reduces a stack of EXPONENTs. *)
Lemma reduce_while_exponents :
  forall n valstack,
    reduce_while EXPONENT (repeat EXPONENT n) valstack
    = Ok (repeat EXPONENT n, valstack).
Proof. intros [|n] valstack; reflexivity. Qed.

Lemma operator_after_lparen_exponents :
  forall n valstack lparen_depths,
    operator_after_lparen (repeat EXPONENT n) valstack lparen_depths = false.
Proof. intros [|n] valstack lparen_depths; reflexivity. Qed.

(** Reading [x1 ^ ... xn ^ last] only pushes. *)
Lemma parse_loop_exponent_chain :
  forall xs last n valstack,
    parse_loop (exponent_chain xs last) (repeat EXPONENT n) valstack []
    = (finish (repeat EXPONENT (length xs + n))
         (IntLitNode last :: rev (map IntLitNode xs) ++ valstack),
       [tk EOF]).
Proof.
  unfold exponent_chain.
  induction xs as [|x xs IH]; intros last n valstack.
  - reflexivity.
  - cbn [flat_map app parse_loop tokentype intlit tk intvalue
           TokenType_beq follows_operand operatortypes orb].
    rewrite operator_after_lparen_exponents, reduce_while_exponents.
    change (EXPONENT :: repeat EXPONENT n) with (repeat EXPONENT (S n)).
    rewrite IH. cbn [map rev length].
    rewrite <- app_assoc. cbn [app].
    now replace (length xs + S n) with (S (length xs) + n) by lia.
Qed.

(** Draining a stack of EXPONENTs folds the value stack from the top. *)
Lemma drain_exponents :
  forall ls r,
    drain (repeat EXPONENT (length ls)) (r :: ls)
    = Ok [fold_left (fun acc l => BinOpNode EXPONENT l acc) ls r].
Proof.
  induction ls as [|l ls IH]; intros r.
  - reflexivity.
  - cbn [length repeat drain TokenType_beq reduce fold_left].
    apply IH.
Qed.

Lemma parse_expression_exponent_chain :
  forall xs last,
    parse_expression (exponent_chain xs last)
    = (Ok (nest_right xs last), [tk EOF]).
Proof.
  intros xs last. unfold parse_expression.
  change (@nil TokenType) with (repeat EXPONENT 0).
  rewrite parse_loop_exponent_chain.
  rewrite Nat.add_0_r, app_nil_r. unfold finish.
  replace (length xs) with (length (rev (map IntLitNode xs)))
    by now rewrite length_rev, length_map.
  rewrite drain_exponents.
  pose proof (fold_left_rev_right
                (fun l acc => BinOpNode EXPONENT l acc)
                (rev (map IntLitNode xs)) (IntLitNode last)) as H.
  rewrite rev_involutive in H. rewrite <- H.
  unfold nest_right. f_equal. f_equal. clear H.
  induction xs as [|x xs IH]; [reflexivity|].
  cbn [map fold_right]. now rewrite IH.
Qed.

(** *** Left-nested chains of one precedence level *)

Variable p : nat.

Lemma parse_loop_operator_chain :
  forall steps top acc v,
    level p top ->
    Forall (fun s => level p (fst s)) steps ->
    parse_loop
      (flat_map (fun s => [tk (fst s); intlit (snd s)]) steps ++ [tk EOF])
      [top] [IntLitNode v; acc] []
    = (Ok (fold_left
             (fun acc s => BinOpNode (fst s) acc (IntLitNode (snd s)))
             steps (BinOpNode top acc (IntLitNode v))),
       [tk EOF]).
Proof.
  induction steps as [|[o x] steps IH]; intros top acc v [Htp Hta] Hall.
  - destruct top; try discriminate; reflexivity.
  - inversion Hall as [|? ? [Hop Hoa] Hall']; subst. cbn [fst] in Hop, Hoa.
    assert (Hnext : exists next more,
               flat_map (fun s => [tk (fst s); intlit (snd s)]) steps
                 ++ [tk EOF] = next :: more /\
               follows_operand (tokentype next) = true).
    { destruct steps as [|[o' x'] steps'].
      - exists (tk EOF), []. split; reflexivity.
      - inversion Hall' as [|? ? [Hop' _] _]; subst. cbn [fst] in Hop'.
        eexists; eexists; split; [reflexivity|].
        destruct o'; try discriminate; reflexivity. }
    destruct Hnext as (next & more & Heq & Hfol).
    specialize (IH o (BinOpNode top acc (IntLitNode v)) x
                  (conj Hop Hoa) Hall').
    cbn [flat_map app fst snd fold_left]. rewrite Heq in IH |- *.
    destruct top; try discriminate; destruct o; try discriminate;
      simpl in Htp, Hop; try congruence;
      cbn [parse_loop tokentype intlit tk intvalue TokenType_beq
             operatortypes operator_after_lparen andb reduce_while
             precedence leftassoc Nat.ltb Nat.leb Nat.eqb reduce];
      rewrite Hfol; exact IH.
Qed.

Lemma parse_expression_operator_chain :
  forall first steps,
    Forall (fun s => level p (fst s)) steps ->
    parse_expression (operator_chain first steps)
    = (Ok (nest_left first steps), [tk EOF]).
Proof.
  intros first [|[o x] steps] Hall.
  - reflexivity.
  - inversion Hall as [|? ? [Hop Hoa] Hall']; subst. cbn [fst] in Hop, Hoa.
    pose proof (parse_loop_operator_chain steps o (IntLitNode first) x
                  (conj Hop Hoa) Hall') as H.
    unfold parse_expression, operator_chain, nest_left.
    cbn [flat_map app fst snd fold_left].
    destruct steps as [|[o' x'] steps'].
    + destruct o; try discriminate; exact H.
    + inversion Hall' as [|? ? [Hop' _] _]; subst. cbn [fst] in Hop'.
      cbn [flat_map app fst snd] in H |- *.
      destruct o; try discriminate; destruct o'; try discriminate;
        exact H.
Qed.

End Chains.

(** C4.  EXPONENT is the one right-associative operator and the other four
    are left-associative.  A chain [x1 ^ x2 ^ ... ^ last] of any length parses
    to the right-nested tree [x1 ^ (x2 ^ (... ^ last))]; a chain
    [first o1 x1 o2 x2 ...] whose operators all have the same precedence and
    are left-associative (all among PLUS, MINUS, or all among TIMES, DIVIDE)
    parses to the left-nested tree [((first o1 x1) o2 x2) ...]; in particular
    [2 ^ 3 ^ 2] and [8 / 4 / 2] parse as the specification says. *)
Theorem associativity_resolution :
  (leftassoc EXPONENT = Some false /\
   leftassoc TIMES = Some true /\ leftassoc DIVIDE = Some true /\
   leftassoc PLUS = Some true /\ leftassoc MINUS = Some true) /\
  (forall xs last,
      parse_expression (exponent_chain xs last)
      = (Ok (nest_right xs last), [tk EOF])) /\
  (forall p first steps,
      Forall (fun s => level p (fst s)) steps ->
      parse_expression (operator_chain first steps)
      = (Ok (nest_left first steps), [tk EOF])) /\
  parse_expression
    [intlit 2; tk EXPONENT; intlit 3; tk EXPONENT; intlit 2; tk EOF]
  = (Ok (BinOpNode EXPONENT (IntLitNode 2)
           (BinOpNode EXPONENT (IntLitNode 3) (IntLitNode 2))), [tk EOF]) /\
  parse_expression
    [intlit 8; tk DIVIDE; intlit 4; tk DIVIDE; intlit 2; tk EOF]
  = (Ok (BinOpNode DIVIDE (BinOpNode DIVIDE (IntLitNode 8) (IntLitNode 4))
           (IntLitNode 2)), [tk EOF]).
Proof.
  split; [repeat split|].
  split; [exact parse_expression_exponent_chain|].
  split; [exact parse_expression_operator_chain|].
  split; reflexivity.
Qed.

Lemma associativity_resolution_witness :
  Forall (fun s => level 1 (fst s)) [(MINUS, 7%Z); (PLUS, 2%Z); (MINUS, 5%Z)] /\
  parse_expression
    [intlit 9; tk MINUS; intlit 7; tk PLUS; intlit 2; tk MINUS; intlit 5;
     tk EOF]
  = (Ok (BinOpNode MINUS
           (BinOpNode PLUS
              (BinOpNode MINUS (IntLitNode 9) (IntLitNode 7))
              (IntLitNode 2))
           (IntLitNode 5)), [tk EOF]).
Proof.
  assert (H : Forall (fun s => level 1 (fst s))
                [(MINUS, 7%Z); (PLUS, 2%Z); (MINUS, 5%Z)])
    by (repeat constructor).
  split; [exact H|].
  exact (proj1 (proj2 (proj2 associativity_resolution))
           1 9%Z [(MINUS, 7%Z); (PLUS, 2%Z); (MINUS, 5%Z)] H).
Defined.

(* ================================================================= *)
(** ** C5: a whole assignment statement *)

(** C5.  On the tokens of [x = 1 + 2 * 3] followed by EOF, [parse] returns
    [AssignNode "x" (1 + (2 * 3))] and leaves nothing in the stream: the EOF
    token is consumed too. *)
Theorem parse_assignment_end_to_end :
  parse [varref "x"; tk ASSIGN; intlit 1; tk PLUS; intlit 2; tk TIMES;
         intlit 3; tk EOF]
  = (Ok (AssignNode "x"
           (BinOpNode PLUS (IntLitNode 1)
              (BinOpNode TIMES (IntLitNode 2) (IntLitNode 3)))),
     []).
Proof. reflexivity. Qed.

(* ================================================================= *)
(** ** C6: mismatched parentheses *)

(** C6.  [(1 + 2] (an LPAREN still open at EOF) and [1 + 2)] (an RPAREN
    with no LPAREN on the operator stack) both make [parse_expression] raise
    "mismatched parentheses"; neither returns a tree. *)
Theorem mismatched_parentheses_both_ways :
  fst (parse_expression [tk LPAREN; intlit 1; tk PLUS; intlit 2; tk EOF])
  = Raise (ParseError (Msg "mismatched parentheses")) /\
  fst (parse_expression [intlit 1; tk PLUS; intlit 2; tk RPAREN; tk EOF])
  = Raise (ParseError (Msg "mismatched parentheses")).
Proof. split; reflexivity. Qed.

(* ================================================================= *)
(** ** C7: empty and incomplete groups *)

(** C7 as the specification words it fails for [(1 +)]: the error raised
    there is not the empty-group message. *)
Lemma incomplete_group_is_not_empty_group_error :
  fst (parse_expression [tk LPAREN; intlit 1; tk PLUS; tk RPAREN; tk EOF])
  <> Raise (ParseError (Msg "expected lparen, intlit, or varref after lparen")).
Proof. cbv. discriminate. Qed.

(** C7 (amended).  [()] and [(1 +)] both fail.  [()] fails with the
    empty-group message "expected lparen, intlit, or varref after lparen",
    raised by the RPAREN branch.  [(1 +)] fails with "expected operand or
    lparen after operator": the RPAREN branch calls [reduce] for the pending
    PLUS, and [reduce] finds one operand only. *)
Theorem empty_and_incomplete_groups :
  fst (parse_expression [tk LPAREN; tk RPAREN; tk EOF])
  = Raise (ParseError (Msg "expected lparen, intlit, or varref after lparen")) /\
  fst (parse_expression [tk LPAREN; intlit 1; tk PLUS; tk RPAREN; tk EOF])
  = Raise (ParseError (Msg "expected operand or lparen after operator")) /\
  reduce [PLUS; LPAREN] [IntLitNode 1]
  = Raise (ParseError (Msg "expected operand or lparen after operator")).
Proof. repeat split; reflexivity. Qed.

(* ================================================================= *)
(** ** C8: operand adjacency *)

(** C8.  From any state of the stacks, when the lookahead is an INTLIT token
    that carries its value and the token after it is none of the five
    operators, RPAREN or EOF, the loop raises "expected operator or rparen
    after int literal" (the literal has been read, the offending token has
    not); in particular [1 2] fails this way and returns no tree. *)
Theorem adjacency_after_int_literal :
  forall tok next rest v opstack valstack lparen_depths,
    tokentype tok = INTLIT ->
    intvalue tok = Some v ->
    operatortypes (tokentype next) = false ->
    tokentype next <> RPAREN ->
    tokentype next <> EOF ->
    parse_loop (tok :: next :: rest) opstack valstack lparen_depths
    = (Raise (ParseError (Msg "expected operator or rparen after int literal")),
       next :: rest) /\
    parse_expression [intlit 1; intlit 2; tk EOF]
    = (Raise (ParseError (Msg "expected operator or rparen after int literal")),
       [intlit 2; tk EOF]).
Proof.
  intros tok next rest v opstack valstack lparen_depths Hk Hv Hop Hr He.
  split; [|reflexivity].
  cbn [parse_loop]. rewrite Hk, Hv. cbn [TokenType_beq].
  now rewrite (follows_operand_false _ Hop Hr He).
Qed.

Lemma adjacency_after_int_literal_witness :
  parse_loop [intlit 1; varref "y"; tk EOF] [PLUS] [IntLitNode 0] []
  = (Raise (ParseError (Msg "expected operator or rparen after int literal")),
     [varref "y"; tk EOF]).
Proof.
  apply (adjacency_after_int_literal (intlit 1) (varref "y") [tk EOF] 1%Z
           [PLUS] [IntLitNode 0] []);
    [reflexivity | reflexivity | reflexivity | discriminate | discriminate].
Defined.

(* ================================================================= *)
(** ** C2: a VARREF token without its lexeme *)

(** C2 as the specification words it fails for the left-hand side: with an
    absent lexeme on the left of [=] and a right-hand side that does not
    parse, the failure is the one of the right-hand side, here the adjacency
    error of [1 2], and not the malformed-token error. *)
Lemma absent_lhs_error_is_not_always_malformed :
  fst (parse [varref_absent; tk ASSIGN; intlit 1; intlit 2; tk EOF])
  = Raise (ParseError (Msg "expected operator or rparen after int literal")) /\
  fst (parse [varref_absent; tk ASSIGN; intlit 1; intlit 2; tk EOF])
  <> Raise (ParseError (Msg "malformed VARREF token on LHS")).
Proof. split; [reflexivity|]. cbv. discriminate. Qed.

(** C2 (amended).  Take any VARREF token whose lexeme is absent.
    - In an expression, from any state of the stacks, the loop accepts it:
      when the next token may follow an operand, the iteration pushes
      [VarRefNode EmptyString] and the loop goes on with the rest; whatever follows,
      the loop behaves as it does on the same token carrying the empty
      lexeme; alone before EOF the token is the whole expression,
      [VarRefNode EmptyString].
    - At the head of a statement, [parse] never returns a tree.  The lexeme
      is tested after the right-hand side is parsed: when the token is
      followed by ASSIGN and a right-hand side that [parse_expression]
      accepts, the failure is "malformed VARREF token on LHS"; when
      [parse_expression] fails on the right-hand side, its failure is the
      one raised; when the next token is not ASSIGN, the failure is
      "expected ASSIGN but found ...". *)
Theorem missing_lexeme_policy :
  forall tok,
    tokentype tok = VARREF ->
    lexeme tok = None ->
    (forall next rest opstack valstack lparen_depths,
        follows_operand (tokentype next) = true ->
        parse_loop (tok :: next :: rest) opstack valstack lparen_depths
        = parse_loop (next :: rest) opstack (VarRefNode EmptyString :: valstack)
            lparen_depths) /\
    (forall rest opstack valstack lparen_depths,
        parse_loop (tok :: rest) opstack valstack lparen_depths
        = parse_loop (mkToken VARREF (name tok) (Some EmptyString) (intvalue tok) :: rest)
            opstack valstack lparen_depths) /\
    parse_expression [tok; tk EOF] = (Ok (VarRefNode EmptyString), [tk EOF]) /\
    (forall rest node ts', parse (tok :: rest) <> (Ok node, ts')) /\
    (forall asg rhs e rhs',
        tokentype asg = ASSIGN ->
        parse_expression rhs = (Ok e, rhs') ->
        parse (tok :: asg :: rhs)
        = (Raise (ParseError (Msg "malformed VARREF token on LHS")), rhs')) /\
    (forall asg rhs e rhs',
        tokentype asg = ASSIGN ->
        parse_expression rhs = (Raise e, rhs') ->
        parse (tok :: asg :: rhs) = (Raise e, rhs')) /\
    (forall next rest,
        tokentype next <> ASSIGN ->
        parse (tok :: next :: rest)
        = (Raise (ParseError (ExpectedButFound ASSIGN (tokentype next))),
           next :: rest)).
Proof.
  intros tok Hk Hl. repeat split.
  - intros next rest opstack valstack lparen_depths Hfol.
    cbn [parse_loop]. now rewrite Hk, Hl, Hfol.
  - intros rest opstack valstack lparen_depths.
    cbn [parse_loop tokentype lexeme]. now rewrite Hk, Hl.
  - unfold parse_expression. cbn [parse_loop]. now rewrite Hk, Hl.
  - intros rest node ts'.
    unfold parse, bind, peek, read. rewrite Hk. cbn [TokenType_beq].
    rewrite Hl. unfold expect, bind, peek, read, raise.
    destruct rest as [|asg rhs]; [discriminate|].
    destruct (TokenType_beq (tokentype asg) ASSIGN); [|discriminate].
    destruct (parse_expression rhs) as [[e|ex] rhs']; discriminate.
  - intros asg rhs e rhs' Hasg Hrhs.
    unfold parse, bind, peek, read. rewrite Hk. cbn [TokenType_beq].
    rewrite Hl. unfold expect, bind, peek, read, raise.
    rewrite Hasg. cbn [TokenType_beq]. now rewrite Hrhs.
  - intros asg rhs e rhs' Hasg Hrhs.
    unfold parse, bind, peek, read. rewrite Hk. cbn [TokenType_beq].
    unfold expect, bind, peek, read, raise.
    rewrite Hasg. cbn [TokenType_beq]. now rewrite Hrhs.
  - intros next rest Hne. apply TokenType_beq_neq in Hne.
    unfold parse, bind, peek, read. rewrite Hk. cbn [TokenType_beq].
    unfold expect, bind, peek, read, raise. now rewrite Hne.
Qed.

Lemma missing_lexeme_policy_witness :
  parse_expression [varref_absent; tk PLUS; intlit 1; tk EOF]
  = (Ok (BinOpNode PLUS (VarRefNode EmptyString) (IntLitNode 1)), [tk EOF]) /\
  parse [varref_absent; tk ASSIGN; intlit 1; tk EOF]
  = (Raise (ParseError (Msg "malformed VARREF token on LHS")), [tk EOF]) /\
  parse [varref_absent; tk ASSIGN; tk LPAREN; tk RPAREN; tk EOF]
  = (Raise (ParseError (Msg "expected lparen, intlit, or varref after lparen")),
     [tk EOF]) /\
  parse [varref_absent; tk PLUS; intlit 1; tk EOF]
  = (Raise (ParseError (ExpectedButFound ASSIGN PLUS)),
     [tk PLUS; intlit 1; tk EOF]).
Proof.
  destruct (missing_lexeme_policy varref_absent eq_refl eq_refl)
    as (Hexpr & _ & _ & _ & Hlhs & Hrhs & Hasg).
  split; [|split; [|split]].
  - unfold parse_expression.
    rewrite (Hexpr (tk PLUS) [intlit 1; tk EOF] [] [] [] eq_refl).
    reflexivity.
  - exact (Hlhs (tk ASSIGN) [intlit 1; tk EOF] (IntLitNode 1) [tk EOF]
             eq_refl eq_refl).
  - exact (Hrhs (tk ASSIGN) [tk LPAREN; tk RPAREN; tk EOF] _ [tk EOF]
             eq_refl eq_refl).
  - apply (Hasg (tk PLUS) [intlit 1; tk EOF]). discriminate.
Defined.

(* ================================================================= *)
(** ** C9: the trailing EOF *)

Lemma reduce_not_from_expect :
  forall opstack valstack, from_expect (reduce opstack valstack) = false.
Proof.
  intros [|op below] [|r [|l vs]]; reflexivity.
Qed.

Lemma close_paren_not_from_expect :
  forall opstack reduced valstack lparen_depths,
    from_expect (close_paren reduced opstack valstack lparen_depths) = false.
Proof.
  induction opstack as [|top below IH]; intros reduced valstack lparen_depths.
  - reflexivity.
  - cbn [close_paren].
    destruct (TokenType_beq top LPAREN).
    + destruct lparen_depths; [reflexivity|]. now destruct reduced.
    + pose proof (reduce_not_from_expect (top :: below) valstack) as Hr.
      destruct (reduce (top :: below) valstack) as [[o v]|e]; [apply IH|exact Hr].
Qed.

Lemma reduce_while_not_from_expect :
  forall incoming opstack valstack,
    from_expect (reduce_while incoming opstack valstack) = false.
Proof.
  intros incoming.
  induction opstack as [|top below IH]; intros valstack.
  - reflexivity.
  - cbn [reduce_while].
    pose proof (reduce_not_from_expect (top :: below) valstack) as Hr.
    destruct (operatortypes top); [|reflexivity].
    destruct (precedence top); [|reflexivity].
    destruct (precedence incoming); [|reflexivity].
    destruct (_ <? _)%nat.
    + destruct (reduce (top :: below) valstack) as [[o v]|e];
        [apply IH|exact Hr].
    + destruct (_ =? _)%nat; [|reflexivity].
      destruct (leftassoc top) as [[|]|]; try reflexivity.
      destruct (reduce (top :: below) valstack) as [[o v]|e];
        [apply IH|exact Hr].
Qed.

Lemma finish_not_from_expect :
  forall opstack valstack, from_expect (finish opstack valstack) = false.
Proof.
  assert (Hd : forall opstack valstack,
             from_expect (drain opstack valstack) = false).
  { induction opstack as [|top below IH]; intros valstack.
    - reflexivity.
    - cbn [drain]. destruct (TokenType_beq top LPAREN); [reflexivity|].
      pose proof (reduce_not_from_expect (top :: below) valstack) as Hr.
      destruct (reduce (top :: below) valstack) as [[o v]|e];
        [apply IH|exact Hr]. }
  intros opstack valstack. unfold finish. specialize (Hd opstack valstack).
  destruct (drain opstack valstack) as [[|n [|m vs]]|e]; try reflexivity.
  exact Hd.
Qed.

(** No failure of the expression parser comes from [expect]. *)
Lemma parse_loop_not_from_expect :
  forall ts opstack valstack lparen_depths,
    from_expect (fst (parse_loop ts opstack valstack lparen_depths)) = false.
Proof.
  induction ts as [|tok rest IH]; intros opstack valstack lparen_depths.
  - reflexivity.
  - cbn [parse_loop].
    destruct (TokenType_beq (tokentype tok) EOF);
      [apply finish_not_from_expect|].
    destruct (TokenType_beq (tokentype tok) INTLIT).
    { destruct (intvalue tok); [|reflexivity].
      destruct rest as [|next more]; [reflexivity|].
      destruct (follows_operand (tokentype next)); [apply IH|reflexivity]. }
    destruct (TokenType_beq (tokentype tok) VARREF).
    { destruct rest as [|next more]; [reflexivity|].
      destruct (follows_operand (tokentype next)); [apply IH|reflexivity]. }
    destruct (TokenType_beq (tokentype tok) LPAREN); [apply IH|].
    destruct (TokenType_beq (tokentype tok) RPAREN).
    { pose proof (close_paren_not_from_expect opstack false valstack
                    lparen_depths) as Hc.
      destruct (close_paren false opstack valstack lparen_depths)
        as [[[o v] d]|e]; [apply IH|exact Hc]. }
    destruct (operatortypes (tokentype tok)); [|reflexivity].
    destruct valstack as [|top vs]; [reflexivity|].
    destruct (operator_after_lparen opstack (top :: vs) lparen_depths);
      [reflexivity|].
    pose proof (reduce_while_not_from_expect (tokentype tok) opstack
                  (top :: vs)) as Hw.
    destruct (reduce_while (tokentype tok) opstack (top :: vs))
      as [[o v]|e]; [apply IH|exact Hw].
Qed.

(** When the expression parser returns a tree, it has consumed the tokens
    before the first EOF token and stopped in front of it. *)
Lemma parse_loop_stops_at_eof :
  forall ts opstack valstack lparen_depths node ts',
    parse_loop ts opstack valstack lparen_depths = (Ok node, ts') ->
    exists pre eof rest,
      ts = pre ++ eof :: rest /\ ts' = eof :: rest /\
      tokentype eof = EOF /\
      Forall (fun t => tokentype t <> EOF) pre.
Proof.
  induction ts as [|tok rest IH];
    intros opstack valstack lparen_depths node ts' H.
  - discriminate.
  - cbn [parse_loop] in H.
    destruct (TokenType_beq (tokentype tok) EOF) eqn:Heof.
    + inversion H; subst. exists [], tok, rest.
      apply TokenType_beq_eq in Heof. now repeat split.
    + apply TokenType_beq_neq in Heof.
      assert (Hrec : forall o v d,
                 parse_loop rest o v d = (Ok node, ts') ->
                 exists pre eof rest',
                   tok :: rest = pre ++ eof :: rest' /\ ts' = eof :: rest' /\
                   tokentype eof = EOF /\
                   Forall (fun t => tokentype t <> EOF) pre).
      { intros o v d Hr.
        destruct (IH o v d node ts' Hr) as (pre & eof & rest' & -> & -> & He & Hp).
        exists (tok :: pre), eof, rest'. repeat split; auto. }
      clear IH.
      destruct (TokenType_beq (tokentype tok) INTLIT).
      { destruct (intvalue tok); [|discriminate].
        destruct rest as [|next more]; [discriminate|].
        destruct (follows_operand (tokentype next)); [|discriminate].
        eapply Hrec; eassumption. }
      destruct (TokenType_beq (tokentype tok) VARREF).
      { destruct rest as [|next more]; [discriminate|].
        destruct (follows_operand (tokentype next)); [|discriminate].
        eapply Hrec; eassumption. }
      destruct (TokenType_beq (tokentype tok) LPAREN);
        [eapply Hrec; eassumption|].
      destruct (TokenType_beq (tokentype tok) RPAREN).
      { destruct (close_paren false opstack valstack lparen_depths)
          as [[[o v] d]|e]; [|discriminate].
        eapply Hrec; eassumption. }
      destruct (operatortypes (tokentype tok)); [|discriminate].
      destruct valstack as [|top vs]; [discriminate|].
      destruct (operator_after_lparen opstack (top :: vs) lparen_depths);
        [discriminate|].
      destruct (reduce_while (tokentype tok) opstack (top :: vs))
        as [[o v]|e]; [|discriminate].
      eapply Hrec; eassumption.
Qed.

(** C9 as the specification words it fails for the assignment form: [x = 1]
    followed by EOF is a complete statement, yet with a PRINT token after it
    the failure is the adjacency error of the expression parser, not the
    missing-EOF error of [expect]. *)
Lemma assignment_trailing_token_is_not_eof_error :
  parse [varref "x"; tk ASSIGN; intlit 1; tk EOF]
  = (Ok (AssignNode "x" (IntLitNode 1)), []) /\
  fst (parse [varref "x"; tk ASSIGN; intlit 1; print_tok "y"; tk EOF])
  = Raise (ParseError (Msg "expected operator or rparen after int literal")) /\
  fst (parse [varref "x"; tk ASSIGN; intlit 1; print_tok "y"; tk EOF])
  <> Raise (ParseError (ExpectedButFound EOF PRINT)).
Proof. repeat split. cbv. discriminate. Qed.

(** C9 (amended).
    - PRINT and INTDEC (with their name present): the token after the keyword
      decides.  If it is EOF, [parse] returns the node and has consumed the
      EOF; otherwise [parse] fails with "expected EOF but found ..." and the
      offending token stays unread.
    - Assignment: the expression parser runs up to the first EOF token, so
      the EOF check after it cannot fail: [parse] on a stream that starts with
      VARREF never fails with "expected EOF but found ...", and once the
      right-hand side is accepted (and the lexeme is present) the statement
      is accepted and the EOF consumed.
    - In all three forms, when [parse] returns a tree the stream it leaves is
      what followed the first EOF token. *)
Theorem trailing_eof_by_statement_form :
  (forall t next rest n,
      tokentype t = PRINT -> name t = Some n ->
      parse (t :: next :: rest)
      = if TokenType_beq (tokentype next) EOF
        then (Ok (PrintNode n), rest)
        else (Raise (ParseError (ExpectedButFound EOF (tokentype next))),
              next :: rest)) /\
  (forall t next rest n,
      tokentype t = INTDEC -> name t = Some n ->
      parse (t :: next :: rest)
      = if TokenType_beq (tokentype next) EOF
        then (Ok (IntDclNode n), rest)
        else (Raise (ParseError (ExpectedButFound EOF (tokentype next))),
              next :: rest)) /\
  (forall lhs rest found ts',
      tokentype lhs = VARREF ->
      parse (lhs :: rest)
      <> (Raise (ParseError (ExpectedButFound EOF found)), ts')) /\
  (forall lhs asg rhs x e ts',
      tokentype lhs = VARREF -> lexeme lhs = Some x ->
      tokentype asg = ASSIGN ->
      parse_expression rhs = (Ok e, ts') ->
      exists eof rest,
        ts' = eof :: rest /\ tokentype eof = EOF /\
        parse (lhs :: asg :: rhs) = (Ok (AssignNode x e), rest)) /\
  (forall ts node ts',
      parse ts = (Ok node, ts') ->
      exists pre eof,
        ts = pre ++ eof :: ts' /\ tokentype eof = EOF /\
        Forall (fun t => tokentype t <> EOF) pre).
Proof.
  repeat split.
  - intros t next rest n Hk Hn.
    unfold parse, bind, peek, read. rewrite Hk. cbn [TokenType_beq].
    rewrite Hn. unfold expect, bind, peek, read, raise, ret.
    now destruct (TokenType_beq (tokentype next) EOF).
  - intros t next rest n Hk Hn.
    unfold parse, bind, peek, read. rewrite Hk. cbn [TokenType_beq].
    rewrite Hn. unfold expect, bind, peek, read, raise, ret.
    now destruct (TokenType_beq (tokentype next) EOF).
  - intros lhs rest found ts' Hk.
    unfold parse, bind, peek, read. rewrite Hk. cbn [TokenType_beq].
    unfold expect, bind, peek, read, raise, ret.
    destruct rest as [|asg rhs]; [discriminate|].
    destruct (TokenType_beq (tokentype asg) ASSIGN); [|congruence].
    pose proof (parse_loop_not_from_expect rhs [] [] []) as Hne.
    unfold parse_expression.
    destruct (parse_loop rhs [] [] []) as [[e|ex] ts1] eqn:Hrhs.
    + destruct (lexeme lhs); [|discriminate].
      apply parse_loop_stops_at_eof in Hrhs.
      destruct Hrhs as (pre & eof & more & _ & -> & He & _).
      rewrite He. cbn [TokenType_beq]. discriminate.
    + cbn [fst from_expect] in Hne. intros Habs. inversion Habs; subst.
      discriminate.
  - intros lhs asg rhs x e ts' Hk Hx Hasg Hrhs.
    pose proof Hrhs as Hstop. unfold parse_expression in Hstop.
    apply parse_loop_stops_at_eof in Hstop.
    destruct Hstop as (pre & eof & more & _ & -> & He & _).
    exists eof, more. repeat split; [exact He|].
    unfold parse, bind, peek, read. rewrite Hk. cbn [TokenType_beq].
    unfold expect, bind, peek, read, raise, ret.
    rewrite Hasg. cbn [TokenType_beq]. rewrite Hrhs, Hx, He. reflexivity.
  - intros ts node ts' H.
    destruct ts as [|t rest]; [discriminate|].
    unfold parse, bind, peek, read in H.
    destruct (TokenType_beq (tokentype t) PRINT) eqn:Hprint.
    { apply TokenType_beq_eq in Hprint.
      destruct (name t); [|discriminate].
      unfold expect, bind, peek, read, raise, ret in H.
      destruct rest as [|next more]; [discriminate|].
      destruct (TokenType_beq (tokentype next) EOF) eqn:He; [|discriminate].
      inversion H; subst. exists [t], next.
      apply TokenType_beq_eq in He. repeat split; auto.
      constructor; [congruence|constructor]. }
    destruct (TokenType_beq (tokentype t) INTDEC) eqn:Hdec.
    { apply TokenType_beq_eq in Hdec.
      destruct (name t); [|discriminate].
      unfold expect, bind, peek, read, raise, ret in H.
      destruct rest as [|next more]; [discriminate|].
      destruct (TokenType_beq (tokentype next) EOF) eqn:He; [|discriminate].
      inversion H; subst. exists [t], next.
      apply TokenType_beq_eq in He. repeat split; auto.
      constructor; [congruence|constructor]. }
    destruct (TokenType_beq (tokentype t) VARREF) eqn:Hvar; [|discriminate].
    apply TokenType_beq_eq in Hvar.
    unfold expect, bind, peek, read, raise, ret in H.
    destruct rest as [|asg rhs]; [discriminate|].
    destruct (TokenType_beq (tokentype asg) ASSIGN) eqn:Hasg; [|discriminate].
    apply TokenType_beq_eq in Hasg.
    unfold parse_expression in H.
    destruct (parse_loop rhs [] [] []) as [[e|ex] ts1] eqn:Hrhs;
      [|discriminate].
    destruct (lexeme t); [|discriminate].
    apply parse_loop_stops_at_eof in Hrhs.
    destruct Hrhs as (pre & eof & more & -> & -> & He & Hpre).
    rewrite He in H. cbn [TokenType_beq] in H. inversion H; subst.
    exists (t :: asg :: pre), eof. repeat split; auto.
    constructor; [congruence|]. constructor; [congruence|exact Hpre].
Qed.

Lemma trailing_eof_by_statement_form_witness :
  parse [print_tok "x"; intlit 1; tk EOF]
  = (Raise (ParseError (ExpectedButFound EOF INTLIT)), [intlit 1; tk EOF]) /\
  parse [intdec_tok "x"; tk EOF; tk PLUS] = (Ok (IntDclNode "x"), [tk PLUS]) /\
  parse [varref "x"; tk ASSIGN; intlit 1; tk RPAREN; tk EOF]
  <> (Raise (ParseError (ExpectedButFound EOF RPAREN)), [tk RPAREN; tk EOF]) /\
  (exists eof rest,
      [tk EOF; tk PLUS] = eof :: rest /\ tokentype eof = EOF /\
      parse [varref "x"; tk ASSIGN; intlit 1; tk EOF; tk PLUS]
      = (Ok (AssignNode "x" (IntLitNode 1)), rest)) /\
  (exists pre eof,
      [print_tok "x"; tk EOF; tk PLUS] = pre ++ eof :: [tk PLUS] /\
      tokentype eof = EOF /\ Forall (fun t => tokentype t <> EOF) pre).
Proof.
  destruct trailing_eof_by_statement_form as (Hp & Hd & Hv & Ha & Hall).
  split; [|split; [|split; [|split]]].
  - exact (Hp (print_tok "x") (intlit 1) [tk EOF] "x" eq_refl eq_refl).
  - exact (Hd (intdec_tok "x") (tk EOF) [tk PLUS] "x" eq_refl eq_refl).
  - exact (Hv (varref "x") [tk ASSIGN; intlit 1; tk RPAREN; tk EOF] RPAREN
             [tk RPAREN; tk EOF] eq_refl).
  - exact (Ha (varref "x") (tk ASSIGN) [intlit 1; tk EOF; tk PLUS] "x"
             (IntLitNode 1) [tk EOF; tk PLUS] eq_refl eq_refl eq_refl eq_refl).
  - exact (Hall [print_tok "x"; tk EOF; tk PLUS] (PrintNode "x") [tk PLUS]
             eq_refl).
Defined.

(* ================================================================= *)
(** ** C10: what [reduce] is called with *)

(** *** Forgetting the log *)

Lemma close_paren_traced_erase :
  forall opstack reduced valstack lparen_depths,
    fst (close_paren_traced reduced opstack valstack lparen_depths)
    = close_paren reduced opstack valstack lparen_depths.
Proof.
  induction opstack as [|top below IH]; intros reduced valstack lparen_depths.
  - reflexivity.
  - cbn [close_paren_traced close_paren].
    destruct (TokenType_beq top LPAREN).
    + destruct lparen_depths; [reflexivity|]. now destruct reduced.
    + destruct (reduce (top :: below) valstack) as [[o v]|e]; [|reflexivity].
      rewrite <- IH.
      now destruct (close_paren_traced true below v lparen_depths).
Qed.

Lemma reduce_while_traced_erase :
  forall incoming opstack valstack,
    fst (reduce_while_traced incoming opstack valstack)
    = reduce_while incoming opstack valstack.
Proof.
  intros incoming.
  induction opstack as [|top below IH]; intros valstack.
  - reflexivity.
  - cbn [reduce_while_traced reduce_while].
    destruct (operatortypes top); [|reflexivity].
    destruct (precedence top); [|reflexivity].
    destruct (precedence incoming); [|reflexivity].
    destruct (_ <? _)%nat.
    + destruct (reduce (top :: below) valstack) as [[o v]|e]; [|reflexivity].
      rewrite <- IH. now destruct (reduce_while_traced incoming below v).
    + destruct (_ =? _)%nat; [|reflexivity].
      destruct (leftassoc top) as [[|]|]; try reflexivity.
      destruct (reduce (top :: below) valstack) as [[o v]|e]; [|reflexivity].
      rewrite <- IH. now destruct (reduce_while_traced incoming below v).
Qed.

Lemma drain_traced_erase :
  forall opstack valstack,
    fst (drain_traced opstack valstack) = drain opstack valstack.
Proof.
  induction opstack as [|top below IH]; intros valstack.
  - reflexivity.
  - cbn [drain_traced drain].
    destruct (TokenType_beq top LPAREN); [reflexivity|].
    destruct (reduce (top :: below) valstack) as [[o v]|e]; [|reflexivity].
    rewrite <- IH. now destruct (drain_traced below v).
Qed.

Lemma finish_traced_erase :
  forall opstack valstack,
    fst (finish_traced opstack valstack) = finish opstack valstack.
Proof.
  intros opstack valstack. unfold finish_traced, finish.
  rewrite <- drain_traced_erase.
  now destruct (drain_traced opstack valstack) as [[[|n [|m vs]]|e] calls].
Qed.

Lemma parse_loop_traced_erase :
  forall ts opstack valstack lparen_depths,
    fst (parse_loop_traced ts opstack valstack lparen_depths)
    = parse_loop ts opstack valstack lparen_depths.
Proof.
  induction ts as [|tok rest IH]; intros opstack valstack lparen_depths.
  - reflexivity.
  - cbn [parse_loop_traced parse_loop].
    destruct (TokenType_beq (tokentype tok) EOF).
    { rewrite <- finish_traced_erase.
      now destruct (finish_traced opstack valstack). }
    destruct (TokenType_beq (tokentype tok) INTLIT).
    { destruct (intvalue tok); [|reflexivity].
      destruct rest as [|next more]; [reflexivity|].
      destruct (follows_operand (tokentype next)); [apply IH|reflexivity]. }
    destruct (TokenType_beq (tokentype tok) VARREF).
    { destruct rest as [|next more]; [reflexivity|].
      destruct (follows_operand (tokentype next)); [apply IH|reflexivity]. }
    destruct (TokenType_beq (tokentype tok) LPAREN); [apply IH|].
    destruct (TokenType_beq (tokentype tok) RPAREN).
    { rewrite <- close_paren_traced_erase.
      destruct (close_paren_traced false opstack valstack lparen_depths)
        as [[[[o v] d]|e] calls]; [|reflexivity].
      cbn [fst]. rewrite <- IH.
      now destruct (parse_loop_traced rest o v d) as [[r ts'] calls']. }
    destruct (operatortypes (tokentype tok)); [|reflexivity].
    destruct valstack as [|top vs]; [reflexivity|].
    destruct (operator_after_lparen opstack (top :: vs) lparen_depths);
      [reflexivity|].
    rewrite <- reduce_while_traced_erase.
    destruct (reduce_while_traced (tokentype tok) opstack (top :: vs))
      as [[[o v]|e] calls]; [|reflexivity].
    cbn [fst]. rewrite <- IH.
    now destruct (parse_loop_traced rest (tokentype tok :: o) v lparen_depths)
      as [[r ts'] calls'].
Qed.

(** *** The stack invariant and the logged calls *)

Lemma marker_not_lparen :
  forall t,
    marker_ok t = true -> TokenType_beq t LPAREN = false ->
    operatortypes t = true.
Proof.
  intros t Hm Hl. unfold marker_ok in Hm. now rewrite Hl in Hm.
Qed.

(** One call to [reduce] on an operator keeps the stacks well formed. *)
Lemma reduce_stacks_ok :
  forall top below valstack opstack' valstack',
    operatortypes top = true ->
    stacks_ok (top :: below) valstack ->
    reduce (top :: below) valstack = Ok (opstack', valstack') ->
    stacks_ok below valstack'.
Proof.
  intros top below valstack opstack' valstack' Hop [Ho Hv] H.
  cbn [reduce] in H. destruct valstack as [|r [|l vs]]; try discriminate.
  inversion H; subst; clear H.
  cbn [forallb] in Ho, Hv.
  apply andb_true_iff in Ho as [_ Ho].
  apply andb_true_iff in Hv as [Hr Hv].
  apply andb_true_iff in Hv as [Hl Hv].
  split; [exact Ho|]. cbn [forallb binops_ok]. now rewrite Hop, Hl, Hr, Hv.
Qed.

Lemma close_paren_traced_calls :
  forall opstack reduced valstack lparen_depths r calls,
    stacks_ok opstack valstack ->
    close_paren_traced reduced opstack valstack lparen_depths = (r, calls) ->
    forallb top_is_operator calls = true /\
    (forall o v d, r = Ok (o, v, d) -> stacks_ok o v).
Proof.
  induction opstack as [|top below IH];
    intros reduced valstack lparen_depths r calls Hok H.
  - inversion H; subst. split; [reflexivity|discriminate].
  - cbn [close_paren_traced] in H.
    destruct (TokenType_beq top LPAREN) eqn:Hl.
    + assert (Hbelow : stacks_ok below valstack).
      { destruct Hok as [Ho Hv]. cbn [forallb] in Ho.
        apply andb_true_iff in Ho as [_ Ho]. now split. }
      destruct lparen_depths as [|d ds].
      * inversion H; subst. split; [reflexivity|discriminate].
      * destruct reduced; cbn [negb] in H; inversion H; subst;
          (split; [reflexivity|]); [|discriminate].
        intros o v d' E. now inversion E; subst.
    + assert (Hop : operatortypes top = true).
      { apply marker_not_lparen; [|exact Hl].
        destruct Hok as [Ho _]. cbn [forallb] in Ho.
        now apply andb_true_iff in Ho as [Ho _]. }
      destruct (reduce (top :: below) valstack) as [[o v]|e] eqn:Hr.
      * destruct (close_paren_traced true below v lparen_depths)
          as [r' calls'] eqn:Hrec.
        inversion H; subst.
        destruct (IH true v lparen_depths r calls'
                    (reduce_stacks_ok _ _ _ _ _ Hop Hok Hr) Hrec)
          as [Hcalls Hres].
        split; [|exact Hres].
        cbn [forallb top_is_operator fst]. now rewrite Hop, Hcalls.
      * inversion H; subst. split; [|discriminate].
        cbn [forallb top_is_operator fst]. now rewrite Hop.
Qed.

Lemma reduce_while_traced_calls :
  forall incoming opstack valstack r calls,
    stacks_ok opstack valstack ->
    reduce_while_traced incoming opstack valstack = (r, calls) ->
    forallb top_is_operator calls = true /\
    (forall o v, r = Ok (o, v) -> stacks_ok o v).
Proof.
  intros incoming.
  induction opstack as [|top below IH]; intros valstack r calls Hok H.
  - inversion H; subst. split; [reflexivity|].
    intros o v E. now inversion E; subst.
  - assert (Hstay : (Ok (top :: below, valstack), @nil reduce_call) = (r, calls) ->
                    forallb top_is_operator calls = true /\
                    (forall o v, r = Ok (o, v) -> stacks_ok o v)).
    { intros E. inversion E; subst. split; [reflexivity|].
      intros o v E'. now inversion E'; subst. }
    assert (Hkey : forall k, (@Raise (list TokenType * list ASTNode) (KeyError k),
                              @nil reduce_call) = (r, calls) ->
                    forallb top_is_operator calls = true /\
                    (forall o v, r = Ok (o, v) -> stacks_ok o v)).
    { intros k E. inversion E; subst. split; [reflexivity|discriminate]. }
    cbn [reduce_while_traced] in H.
    destruct (operatortypes top) eqn:Hop; [|now apply Hstay].
    assert (Hgo : match reduce (top :: below) valstack with
                  | Ok (_, valstack') =>
                      let (r, calls) :=
                        reduce_while_traced incoming below valstack' in
                      (r, (top :: below, valstack) :: calls)
                  | Raise e => (Raise e, [(top :: below, valstack)])
                  end = (r, calls) ->
                  forallb top_is_operator calls = true /\
                  (forall o v, r = Ok (o, v) -> stacks_ok o v)).
    { intros E.
      destruct (reduce (top :: below) valstack) as [[o v]|e] eqn:Hr.
      - destruct (reduce_while_traced incoming below v) as [r' calls'] eqn:Hrec.
        inversion E; subst.
        destruct (IH v r calls' (reduce_stacks_ok _ _ _ _ _ Hop Hok Hr) Hrec)
          as [Hcalls Hres].
        split; [|exact Hres].
        cbn [forallb top_is_operator fst]. now rewrite Hop, Hcalls.
      - inversion E; subst. split; [|discriminate].
        cbn [forallb top_is_operator fst]. now rewrite Hop. }
    destruct (precedence top); [|now apply (Hkey top)].
    destruct (precedence incoming); [|now apply (Hkey incoming)].
    destruct (_ <? _)%nat; [now apply Hgo|].
    destruct (_ =? _)%nat; [|now apply Hstay].
    destruct (leftassoc top) as [[|]|];
      [now apply Hgo | now apply Hstay | now apply (Hkey top)].
Qed.

Lemma finish_traced_calls :
  forall opstack valstack r calls,
    stacks_ok opstack valstack ->
    finish_traced opstack valstack = (r, calls) ->
    forallb top_is_operator calls = true /\
    (forall node, r = Ok node -> binops_ok node = true).
Proof.
  assert (Hd : forall opstack valstack r calls,
             stacks_ok opstack valstack ->
             drain_traced opstack valstack = (r, calls) ->
             forallb top_is_operator calls = true /\
             (forall v, r = Ok v -> forallb binops_ok v = true)).
  { induction opstack as [|top below IH]; intros valstack r calls Hok H.
    - inversion H; subst. split; [reflexivity|].
      intros v E. inversion E; subst. apply Hok.
    - cbn [drain_traced] in H.
      destruct (TokenType_beq top LPAREN) eqn:Hl.
      + inversion H; subst. split; [reflexivity|discriminate].
      + assert (Hop : operatortypes top = true).
        { apply marker_not_lparen; [|exact Hl].
          destruct Hok as [Ho _]. cbn [forallb] in Ho.
          now apply andb_true_iff in Ho as [Ho _]. }
        destruct (reduce (top :: below) valstack) as [[o v]|e] eqn:Hr.
        * destruct (drain_traced below v) as [r' calls'] eqn:Hrec.
          inversion H; subst.
          destruct (IH v r calls' (reduce_stacks_ok _ _ _ _ _ Hop Hok Hr) Hrec)
            as [Hcalls Hres].
          split; [|exact Hres].
          cbn [forallb top_is_operator fst]. now rewrite Hop, Hcalls.
        * inversion H; subst. split; [|discriminate].
          cbn [forallb top_is_operator fst]. now rewrite Hop. }
  intros opstack valstack r calls Hok H. unfold finish_traced in H.
  destruct (drain_traced opstack valstack) as [r' calls'] eqn:Hdr.
  destruct (Hd _ _ _ _ Hok Hdr) as [Hcalls Hres].
  destruct r' as [[|n [|m vs]]|e]; inversion H; subst;
    (split; [exact Hcalls|]); try discriminate.
  intros node E. inversion E; subst.
  specialize (Hres [node] eq_refl). cbn [forallb] in Hres.
  now apply andb_true_iff in Hres as [Hres _].
Qed.

Lemma parse_loop_traced_calls :
  forall ts opstack valstack lparen_depths r ts' calls,
    stacks_ok opstack valstack ->
    parse_loop_traced ts opstack valstack lparen_depths = (r, ts', calls) ->
    forallb top_is_operator calls = true /\
    (forall node, r = Ok node -> binops_ok node = true).
Proof.
  induction ts as [|tok rest IH];
    intros opstack valstack lparen_depths r ts' calls Hok H.
  - inversion H; subst. split; [reflexivity|discriminate].
  - assert (Hfail : forall (e : exn) (ts0 : TokenStream),
               (@Raise ASTNode e, ts0, @nil reduce_call) = (r, ts', calls) ->
               forallb top_is_operator calls = true /\
               (forall node, r = Ok node -> binops_ok node = true)).
    { intros e ts0 E. inversion E; subst. split; [reflexivity|discriminate]. }
    assert (Hpush : forall node,
               binops_ok node = true -> stacks_ok opstack (node :: valstack)).
    { intros node Hn. destruct Hok as [Ho Hv]. split; [exact Ho|].
      cbn [forallb]. now rewrite Hn, Hv. }
    cbn [parse_loop_traced] in H.
    destruct (TokenType_beq (tokentype tok) EOF).
    { destruct (finish_traced opstack valstack) as [r' calls'] eqn:Hfin.
      inversion H; subst. eapply finish_traced_calls; eassumption. }
    destruct (TokenType_beq (tokentype tok) INTLIT).
    { destruct (intvalue tok) as [v|]; [|now apply (Hfail _ _ H)].
      destruct rest as [|next more]; [now apply (Hfail _ _ H)|].
      destruct (follows_operand (tokentype next));
        [|now apply (Hfail _ _ H)].
      eapply IH; [|exact H]. now apply Hpush. }
    destruct (TokenType_beq (tokentype tok) VARREF).
    { destruct rest as [|next more]; [now apply (Hfail _ _ H)|].
      destruct (follows_operand (tokentype next));
        [|now apply (Hfail _ _ H)].
      eapply IH; [|exact H]. now apply Hpush. }
    destruct (TokenType_beq (tokentype tok) LPAREN).
    { eapply IH; [|exact H]. destruct Hok as [Ho Hv]. split; [|exact Hv].
      cbn [forallb]. now rewrite Ho. }
    destruct (TokenType_beq (tokentype tok) RPAREN).
    { destruct (close_paren_traced false opstack valstack lparen_depths)
        as [rc calls1] eqn:Hcp.
      destruct (close_paren_traced_calls _ _ _ _ _ _ Hok Hcp) as [Hc1 Hres].
      destruct rc as [[[o v] d]|e].
      - destruct (parse_loop_traced rest o v d) as [[r2 ts2] calls2] eqn:Hrec.
        inversion H; subst.
        destruct (IH o v d r ts' calls2 (Hres o v d eq_refl) Hrec)
          as [Hc2 Hnode].
        split; [|exact Hnode]. rewrite forallb_app. now rewrite Hc1, Hc2.
      - inversion H; subst. split; [exact Hc1|discriminate]. }
    destruct (operatortypes (tokentype tok)) eqn:Hop;
      [|now apply (Hfail _ _ H)].
    destruct valstack as [|top vs]; [now apply (Hfail _ _ H)|].
    destruct (operator_after_lparen opstack (top :: vs) lparen_depths);
      [now apply (Hfail _ _ H)|].
    destruct (reduce_while_traced (tokentype tok) opstack (top :: vs))
      as [rw calls1] eqn:Hrw.
    destruct (reduce_while_traced_calls _ _ _ _ _ Hok Hrw) as [Hc1 Hres].
    destruct rw as [[o v]|e].
    + destruct (parse_loop_traced rest (tokentype tok :: o) v lparen_depths)
        as [[r2 ts2] calls2] eqn:Hrec.
      inversion H; subst.
      assert (Hok' : stacks_ok (tokentype tok :: o) v).
      { destruct (Hres o v eq_refl) as [Ho Hv]. split; [|exact Hv].
        cbn [forallb]. unfold marker_ok at 1. rewrite Hop, Ho.
        now rewrite orb_true_r. }
      destruct (IH _ _ _ r ts' calls2 Hok' Hrec) as [Hc2 Hnode].
      split; [|exact Hnode]. rewrite forallb_app. now rewrite Hc1, Hc2.
    + inversion H; subst. split; [exact Hc1|discriminate].
Qed.

(** What [reduce] does when the top of the operator stack is an operator:
    it does not take its "mismatched parentheses" branch, and the node it
    builds carries that operator. *)
Lemma reduce_on_operator :
  forall c,
    top_is_operator c = true ->
    (exists top below, fst c = top :: below /\ operatortypes top = true) /\
    reduce (fst c) (snd c)
    <> Raise (ParseError (Msg "mismatched parentheses")) /\
    (forall opstack' valstack',
        reduce (fst c) (snd c) = Ok (opstack', valstack') ->
        exists op l r vs,
          valstack' = BinOpNode op l r :: vs /\ operatortypes op = true).
Proof.
  intros [[|top below] valstack] Htop; cbn [top_is_operator fst] in Htop;
    [discriminate|].
  cbn [fst snd]. split; [now exists top, below|].
  split.
  - cbn [reduce]. destruct valstack as [|r [|l vs]]; discriminate.
  - intros opstack' valstack' H.
    apply reduce_ok_inv in H.
    destruct H as (op & r & l & vs & Hops & _ & ->).
    inversion Hops; subst. now exists op, l, r, vs.
Qed.

(** C10.  Run [parse_expression] on any token stream and log every call it
    makes to [reduce].  Every logged call has a non-empty operator stack with
    one of the five operator kinds on top, so it never takes the
    "mismatched parentheses" branch of [reduce], and the [BinOpNode] it builds
    (when it builds one) carries an operator kind.  Consequently every
    [BinOpNode] of a tree returned by [parse_expression], and by [parse],
    carries one of the five operator kinds. *)
Theorem reduce_called_on_operators :
  forall ts r ts' calls,
    parse_expression_traced ts = (r, ts', calls) ->
    parse_expression ts = (r, ts') /\
    (forall c,
        In c calls ->
        (exists top below, fst c = top :: below /\ operatortypes top = true) /\
        reduce (fst c) (snd c)
        <> Raise (ParseError (Msg "mismatched parentheses")) /\
        (forall opstack' valstack',
            reduce (fst c) (snd c) = Ok (opstack', valstack') ->
            exists op l r' vs,
              valstack' = BinOpNode op l r' :: vs /\
              operatortypes op = true)) /\
    (forall node, r = Ok node -> binops_ok node = true) /\
    (forall ts0 node ts0', parse ts0 = (Ok node, ts0') -> binops_ok node = true).
Proof.
  assert (Hexpr : forall ts r ts' calls,
             parse_expression_traced ts = (r, ts', calls) ->
             parse_expression ts = (r, ts') /\
             forallb top_is_operator calls = true /\
             (forall node, r = Ok node -> binops_ok node = true)).
  { intros ts r ts' calls H. unfold parse_expression_traced in H.
    split.
    - unfold parse_expression. rewrite <- parse_loop_traced_erase.
      now rewrite H.
    - eapply parse_loop_traced_calls; [|exact H]. now split. }
  intros ts r ts' calls H.
  destruct (Hexpr ts r ts' calls H) as (Herase & Hcalls & Hnode).
  split; [exact Herase|]. split; [|split; [exact Hnode|]].
  - intros c Hin. apply reduce_on_operator.
    rewrite forallb_forall in Hcalls. now apply Hcalls.
  - clear - Hexpr. intros ts0 node ts0' H.
    destruct ts0 as [|t rest]; [discriminate|].
    unfold parse, bind, peek, read in H.
    destruct (TokenType_beq (tokentype t) PRINT).
    { destruct (name t); [|discriminate].
      unfold expect, bind, peek, read, raise, ret in H.
      destruct rest as [|next more]; [discriminate|].
      destruct (TokenType_beq (tokentype next) EOF); [|discriminate].
      now inversion H. }
    destruct (TokenType_beq (tokentype t) INTDEC).
    { destruct (name t); [|discriminate].
      unfold expect, bind, peek, read, raise, ret in H.
      destruct rest as [|next more]; [discriminate|].
      destruct (TokenType_beq (tokentype next) EOF); [|discriminate].
      now inversion H. }
    destruct (TokenType_beq (tokentype t) VARREF); [|discriminate].
    unfold expect, bind, peek, read, raise, ret in H.
    destruct rest as [|asg rhs]; [discriminate|].
    destruct (TokenType_beq (tokentype asg) ASSIGN); [|discriminate].
    destruct (parse_expression_traced rhs) as [[r1 ts1] calls1] eqn:Htr.
    destruct (Hexpr rhs r1 ts1 calls1 Htr) as (Herase & _ & Hnode).
    rewrite Herase in H.
    destruct r1 as [e|ex]; [|discriminate].
    destruct (lexeme t); [|discriminate].
    destruct ts1 as [|eof more]; [discriminate|].
    destruct (TokenType_beq (tokentype eof) EOF); [|discriminate].
    inversion H; subst. cbn [binops_ok]. now apply Hnode.
Qed.

Lemma reduce_called_on_operators_witness :
  parse_expression
    [tk LPAREN; intlit 1; tk PLUS; intlit 2; tk RPAREN; tk TIMES; intlit 3;
     tk EOF]
  = (Ok (BinOpNode TIMES (BinOpNode PLUS (IntLitNode 1) (IntLitNode 2))
           (IntLitNode 3)), [tk EOF]) /\
  binops_ok
    (BinOpNode TIMES (BinOpNode PLUS (IntLitNode 1) (IntLitNode 2))
       (IntLitNode 3)) = true.
Proof.
  destruct (reduce_called_on_operators
              [tk LPAREN; intlit 1; tk PLUS; intlit 2; tk RPAREN; tk TIMES;
               intlit 3; tk EOF]
              (Ok (BinOpNode TIMES
                     (BinOpNode PLUS (IntLitNode 1) (IntLitNode 2))
                     (IntLitNode 3)))
              [tk EOF]
              [([PLUS; LPAREN], [IntLitNode 2; IntLitNode 1]);
               ([TIMES],
                [IntLitNode 3;
                 BinOpNode PLUS (IntLitNode 1) (IntLitNode 2)])]
              eq_refl) as (Herase & _ & Hnode & _).
  split; [exact Herase|]. now apply Hnode.
Defined.

(* ================================================================= *)
(** ** On a terminated stream only [ParseError] is raised

    The exceptions that the embedding adds for Python's own failures
    ([KeyError] on the two dictionaries, [IndexError] on
    [lparen_depths.pop()]) and for reading past the end of the stream are
    never raised when the stream holds an EOF token: the dictionary lookups
    are guarded by [operatortypes], [lparen_depths] has one entry per LPAREN
    marker, and the parser stops reading at EOF. *)

Lemma reduce_only_parse_errors :
  forall opstack valstack, only_parse_errors (reduce opstack valstack) = true.
Proof.
  intros [|op below] [|r [|l vs]]; reflexivity.
Qed.

Lemma lparens_cons :
  forall top below,
    lparens (top :: below)
    = if TokenType_beq top LPAREN then S (lparens below) else lparens below.
Proof.
  intros top below. unfold lparens. cbn [filter].
  now destruct (TokenType_beq top LPAREN).
Qed.

Lemma close_paren_only_parse_errors :
  forall opstack reduced valstack lparen_depths,
    lparens opstack = length lparen_depths ->
    only_parse_errors (close_paren reduced opstack valstack lparen_depths)
    = true /\
    (forall o v d,
        close_paren reduced opstack valstack lparen_depths = Ok (o, v, d) ->
        lparens o = length d).
Proof.
  induction opstack as [|top below IH];
    intros reduced valstack lparen_depths Hlen.
  - split; [reflexivity|discriminate].
  - rewrite lparens_cons in Hlen. cbn [close_paren].
    destruct (TokenType_beq top LPAREN).
    + destruct lparen_depths as [|d ds]; [discriminate|].
      cbn [length] in Hlen. injection Hlen as Hlen.
      destruct reduced; cbn [negb]; (split; [reflexivity|]);
        [|discriminate].
      intros o v d' E. now inversion E; subst.
    + pose proof (reduce_only_parse_errors (top :: below) valstack) as Hr.
      destruct (reduce (top :: below) valstack) as [[o v]|e].
      * now apply IH.
      * split; [exact Hr|discriminate].
Qed.

Lemma reduce_while_only_parse_errors :
  forall incoming opstack valstack,
    operatortypes incoming = true ->
    only_parse_errors (reduce_while incoming opstack valstack) = true /\
    (forall o v,
        reduce_while incoming opstack valstack = Ok (o, v) ->
        lparens o = lparens opstack).
Proof.
  intros incoming opstack valstack Hinc. revert valstack.
  induction opstack as [|top below IH]; intros valstack.
  - split; [reflexivity|]. intros o v E. now inversion E.
  - assert (Hstay : only_parse_errors
                      (@Ok (list TokenType * list ASTNode)
                         (top :: below, valstack)) = true /\
                    (forall o v,
                        Ok (top :: below, valstack) = Ok (o, v) ->
                        lparens o = lparens (top :: below))).
    { split; [reflexivity|]. intros o v E. now inversion E. }
    cbn [reduce_while].
    destruct (operatortypes top) eqn:Hop; [|exact Hstay].
    assert (Hgo : only_parse_errors
                    match reduce (top :: below) valstack with
                    | Ok (_, valstack') => reduce_while incoming below valstack'
                    | Raise e => Raise e
                    end = true /\
                  (forall o v,
                      match reduce (top :: below) valstack with
                      | Ok (_, valstack') =>
                          reduce_while incoming below valstack'
                      | Raise e => Raise e
                      end = Ok (o, v) ->
                      lparens o = lparens (top :: below))).
    { pose proof (reduce_only_parse_errors (top :: below) valstack) as Hr.
      rewrite lparens_cons.
      replace (TokenType_beq top LPAREN) with false
        by (now destruct top).
      destruct (reduce (top :: below) valstack) as [[o v]|e].
      - apply IH.
      - split; [exact Hr|discriminate]. }
    destruct top; try discriminate Hop;
      destruct incoming; try discriminate Hinc;
      cbn [precedence leftassoc Nat.ltb Nat.leb Nat.eqb];
      first [exact Hstay | exact Hgo].
Qed.

Lemma finish_only_parse_errors :
  forall opstack valstack,
    only_parse_errors (finish opstack valstack) = true.
Proof.
  assert (Hd : forall opstack valstack,
             only_parse_errors (drain opstack valstack) = true).
  { induction opstack as [|top below IH]; intros valstack.
    - reflexivity.
    - cbn [drain]. destruct (TokenType_beq top LPAREN); [reflexivity|].
      pose proof (reduce_only_parse_errors (top :: below) valstack) as Hr.
      destruct (reduce (top :: below) valstack) as [[o v]|e];
        [apply IH|exact Hr]. }
  intros opstack valstack. unfold finish. specialize (Hd opstack valstack).
  destruct (drain opstack valstack) as [[|n [|m vs]]|e]; try reflexivity.
  exact Hd.
Qed.

Lemma terminated_tail :
  forall tok rest,
    terminated (tok :: rest) ->
    TokenType_beq (tokentype tok) EOF = false ->
    terminated rest.
Proof.
  intros tok rest H Hne. apply TokenType_beq_neq in Hne.
  inversion H; subst; [contradiction|assumption].
Qed.

Lemma parse_loop_only_parse_errors :
  forall ts opstack valstack lparen_depths,
    terminated ts ->
    lparens opstack = length lparen_depths ->
    only_parse_errors (fst (parse_loop ts opstack valstack lparen_depths))
    = true.
Proof.
  induction ts as [|tok rest IH];
    intros opstack valstack lparen_depths Hterm Hlen.
  - inversion Hterm.
  - cbn [parse_loop].
    destruct (TokenType_beq (tokentype tok) EOF) eqn:Heof;
      [apply finish_only_parse_errors|].
    pose proof (terminated_tail _ _ Hterm Heof) as Hrest.
    destruct (TokenType_beq (tokentype tok) INTLIT).
    { destruct (intvalue tok); [|reflexivity].
      destruct rest as [|next more]; [inversion Hrest|].
      destruct (follows_operand (tokentype next)); [now apply IH|reflexivity]. }
    destruct (TokenType_beq (tokentype tok) VARREF).
    { destruct rest as [|next more]; [inversion Hrest|].
      destruct (follows_operand (tokentype next)); [now apply IH|reflexivity]. }
    destruct (TokenType_beq (tokentype tok) LPAREN).
    { apply IH; [exact Hrest|]. rewrite lparens_cons. cbn. now rewrite Hlen. }
    destruct (TokenType_beq (tokentype tok) RPAREN).
    { destruct (close_paren_only_parse_errors opstack false valstack
                  lparen_depths Hlen) as [Hc Hres].
      destruct (close_paren false opstack valstack lparen_depths)
        as [[[o v] d]|e]; [|exact Hc].
      apply IH; [exact Hrest|]. now apply (Hres o v d). }
    destruct (operatortypes (tokentype tok)) eqn:Hop; [|reflexivity].
    destruct valstack as [|top vs]; [reflexivity|].
    destruct (operator_after_lparen opstack (top :: vs) lparen_depths);
      [reflexivity|].
    destruct (reduce_while_only_parse_errors (tokentype tok) opstack
                (top :: vs) Hop) as [Hw Hres].
    destruct (reduce_while (tokentype tok) opstack (top :: vs))
      as [[o v]|e]; [|exact Hw].
    apply IH; [exact Hrest|]. rewrite lparens_cons.
    replace (TokenType_beq (tokentype tok) LPAREN) with false
      by (now destruct (tokentype tok)).
    rewrite <- Hlen. exact (Hres o v eq_refl).
Qed.

(** On a stream that holds an EOF token, [parse_expression] and [parse]
    return a tree or raise [ParseError]; they never read past the end. *)
Lemma parse_only_parse_errors :
  forall ts,
    terminated ts ->
    only_parse_errors (fst (parse_expression ts)) = true /\
    only_parse_errors (fst (parse ts)) = true.
Proof.
  intros ts Hterm. split.
  - now apply parse_loop_only_parse_errors.
  - destruct ts as [|t rest]; [inversion Hterm|].
    unfold parse, bind, peek, read.
    assert (Hkw : forall k,
               tokentype t = k -> k <> EOF ->
               exists next more, rest = next :: more /\ terminated more
                                 \/ rest = next :: more /\ tokentype next = EOF).
    { intros k Hk Hne.
      assert (Hrest : terminated rest).
      { apply terminated_tail with (tok := t); [exact Hterm|].
        apply TokenType_beq_neq. congruence. }
      destruct rest as [|next more]; [inversion Hrest|].
      exists next, more.
      inversion Hrest; subst; [now right|now left]. }
    destruct (TokenType_beq (tokentype t) PRINT) eqn:Hprint.
    { apply TokenType_beq_eq in Hprint.
      destruct (Hkw PRINT Hprint ltac:(discriminate))
        as (next & more & [[-> _]|[-> _]]);
        destruct (name t); try reflexivity;
        unfold expect, bind, peek, read, raise, ret;
        now destruct (TokenType_beq (tokentype next) EOF). }
    destruct (TokenType_beq (tokentype t) INTDEC) eqn:Hdec.
    { apply TokenType_beq_eq in Hdec.
      destruct (Hkw INTDEC Hdec ltac:(discriminate))
        as (next & more & [[-> _]|[-> _]]);
        destruct (name t); try reflexivity;
        unfold expect, bind, peek, read, raise, ret;
        now destruct (TokenType_beq (tokentype next) EOF). }
    destruct (TokenType_beq (tokentype t) VARREF) eqn:Hvar; [|reflexivity].
    apply TokenType_beq_eq in Hvar.
    unfold expect, bind, peek, read, raise, ret.
    destruct (Hkw VARREF Hvar ltac:(discriminate))
      as (asg & rhs & [[-> Hrhs]|[-> Hasg]]).
    + destruct (TokenType_beq (tokentype asg) ASSIGN); [|reflexivity].
      pose proof (parse_loop_only_parse_errors rhs [] [] [] Hrhs eq_refl)
        as Hexpr.
      unfold parse_expression.
      destruct (parse_loop rhs [] [] []) as [[e|ex] ts1] eqn:Hloop;
        [|exact Hexpr].
      destruct (lexeme t); [|reflexivity].
      apply parse_loop_stops_at_eof in Hloop.
      destruct Hloop as (pre & eof & more & _ & -> & He & _).
      now rewrite He.
    + rewrite Hasg. reflexivity.
Qed.

(* ================================================================= *)
(** * Further properties of the parser *)

(** ** The successful runs of the main loop *)

(** Induction over the iterations of a run of the main loop that returns a
    tree: one case per branch of the loop body. *)
Lemma parse_loop_ok_ind :
  forall P : TokenStream -> list TokenType -> list ASTNode -> list nat ->
             ASTNode -> Prop,
    (forall tok rest opstack valstack lparen_depths node,
        tokentype tok = EOF ->
        finish opstack valstack = Ok node ->
        P (tok :: rest) opstack valstack lparen_depths node) ->
    (forall tok v next more opstack valstack lparen_depths node,
        tokentype tok = INTLIT ->
        intvalue tok = Some v ->
        follows_operand (tokentype next) = true ->
        P (next :: more) opstack (IntLitNode v :: valstack) lparen_depths
          node ->
        P (tok :: next :: more) opstack valstack lparen_depths node) ->
    (forall tok next more opstack valstack lparen_depths node,
        tokentype tok = VARREF ->
        follows_operand (tokentype next) = true ->
        P (next :: more) opstack
          (VarRefNode match lexeme tok with
                      | Some s => s
                      | None => EmptyString
                      end :: valstack) lparen_depths node ->
        P (tok :: next :: more) opstack valstack lparen_depths node) ->
    (forall tok rest opstack valstack lparen_depths node,
        tokentype tok = LPAREN ->
        P rest (LPAREN :: opstack) valstack
          (length valstack :: lparen_depths) node ->
        P (tok :: rest) opstack valstack lparen_depths node) ->
    (forall tok rest opstack valstack lparen_depths opstack' valstack'
            lparen_depths' node,
        tokentype tok = RPAREN ->
        close_paren false opstack valstack lparen_depths
        = Ok (opstack', valstack', lparen_depths') ->
        P rest opstack' valstack' lparen_depths' node ->
        P (tok :: rest) opstack valstack lparen_depths node) ->
    (forall tok rest opstack valstack lparen_depths opstack' valstack' node,
        operatortypes (tokentype tok) = true ->
        valstack <> [] ->
        operator_after_lparen opstack valstack lparen_depths = false ->
        reduce_while (tokentype tok) opstack valstack
        = Ok (opstack', valstack') ->
        P rest (tokentype tok :: opstack') valstack' lparen_depths node ->
        P (tok :: rest) opstack valstack lparen_depths node) ->
    forall ts opstack valstack lparen_depths node ts',
      parse_loop ts opstack valstack lparen_depths = (Ok node, ts') ->
      P ts opstack valstack lparen_depths node.
Proof.
  intros P Heof Hint Hvar Hlp Hrp Hop.
  induction ts as [|tok rest IH];
    intros opstack valstack lparen_depths node ts' H.
  - discriminate.
  - cbn [parse_loop] in H.
    destruct (TokenType_beq (tokentype tok) EOF) eqn:E1.
    { apply TokenType_beq_eq in E1. apply Heof; [exact E1|].
      now inversion H. }
    destruct (TokenType_beq (tokentype tok) INTLIT) eqn:E2.
    { apply TokenType_beq_eq in E2.
      destruct (intvalue tok) as [v|] eqn:Ev; [|discriminate].
      destruct rest as [|next more]; [discriminate|].
      destruct (follows_operand (tokentype next)) eqn:Ef; [|discriminate].
      eapply Hint; eauto. }
    destruct (TokenType_beq (tokentype tok) VARREF) eqn:E3.
    { apply TokenType_beq_eq in E3.
      destruct rest as [|next more]; [discriminate|].
      destruct (follows_operand (tokentype next)) eqn:Ef; [|discriminate].
      eapply Hvar; eauto. }
    destruct (TokenType_beq (tokentype tok) LPAREN) eqn:E4.
    { apply TokenType_beq_eq in E4. eapply Hlp; eauto. }
    destruct (TokenType_beq (tokentype tok) RPAREN) eqn:E5.
    { apply TokenType_beq_eq in E5.
      destruct (close_paren false opstack valstack lparen_depths)
        as [[[o v] d]|e] eqn:Ec; [|discriminate].
      eapply Hrp; eauto. }
    destruct (operatortypes (tokentype tok)) eqn:E6; [|discriminate].
    destruct valstack as [|top vs]; [discriminate|].
    destruct (operator_after_lparen opstack (top :: vs) lparen_depths) eqn:Eg;
      [discriminate|].
    destruct (reduce_while (tokentype tok) opstack (top :: vs))
      as [[o v]|e] eqn:Ew; [|discriminate].
    eapply Hop; eauto. discriminate.
Qed.

(** ** What the inner loops fold *)

(** [reduce] looks at the top of the operator stack only. *)
Lemma reduce_top_only :
  forall top below below' valstack opstack' valstack',
    reduce (top :: below) valstack = Ok (opstack', valstack') ->
    reduce (top :: below') valstack = Ok (below', valstack').
Proof.
  intros top below below' valstack opstack' valstack' H.
  cbn [reduce] in *. destruct valstack as [|r [|l vs]]; try discriminate.
  now inversion H.
Qed.

Lemma close_paren_ok_inv :
  forall opstack reduced valstack lparen_depths opstack' valstack'
         lparen_depths',
    close_paren reduced opstack valstack lparen_depths
    = Ok (opstack', valstack', lparen_depths') ->
    exists popped depth,
      opstack = popped ++ LPAREN :: opstack' /\
      forallb (fun t => negb (TokenType_beq t LPAREN)) popped = true /\
      lparen_depths = depth :: lparen_depths' /\
      reduce_all popped valstack = Some valstack' /\
      (reduced = true \/ popped <> []).
Proof.
  induction opstack as [|top below IH];
    intros reduced valstack lparen_depths opstack' valstack' lparen_depths' H.
  - discriminate.
  - cbn [close_paren] in H.
    destruct (TokenType_beq top LPAREN) eqn:El.
    + apply TokenType_beq_eq in El. subst top.
      destruct lparen_depths as [|d ds]; [discriminate|].
      destruct reduced; cbn [negb] in H; [|discriminate].
      inversion H; subst. exists [], d. repeat split. now left.
    + destruct (reduce (top :: below) valstack) as [[o v]|e] eqn:Er;
        [|discriminate].
      destruct (IH _ _ _ _ _ _ H)
        as (popped & depth & -> & Hnl & -> & Hall & _).
      exists (top :: popped), depth. repeat split.
      * cbn [forallb]. now rewrite El, Hnl.
      * cbn [reduce_all]. now rewrite (reduce_top_only _ _ popped _ _ _ Er).
      * right. discriminate.
Qed.

Lemma reduce_while_ok_inv :
  forall incoming opstack valstack opstack' valstack',
    reduce_while incoming opstack valstack = Ok (opstack', valstack') ->
    exists popped,
      opstack = popped ++ opstack' /\
      forallb operatortypes popped = true /\
      forallb (fun t => reduces_before t incoming) popped = true /\
      reduce_all popped valstack = Some valstack' /\
      match opstack' with
      | top :: _ => operatortypes top && reduces_before top incoming = false
      | [] => True
      end.
Proof.
  intros incoming.
  induction opstack as [|top below IH]; intros valstack opstack' valstack' H.
  - inversion H; subst. now exists [].
  - cbn [reduce_while] in H.
    assert (Hstay : operatortypes top && reduces_before top incoming = false ->
                    Ok (top :: below, valstack) = Ok (opstack', valstack') ->
                    exists popped,
                      top :: below = popped ++ opstack' /\
                      forallb operatortypes popped = true /\
                      forallb (fun t => reduces_before t incoming) popped
                      = true /\
                      reduce_all popped valstack = Some valstack' /\
                      match opstack' with
                      | top :: _ =>
                          operatortypes top && reduces_before top incoming
                          = false
                      | [] => True
                      end).
    { intros Hno E. inversion E; subst. now exists []. }
    assert (Hgo : operatortypes top = true ->
                  reduces_before top incoming = true ->
                  match reduce (top :: below) valstack with
                  | Ok (_, valstack') => reduce_while incoming below valstack'
                  | Raise e => Raise e
                  end = Ok (opstack', valstack') ->
                  exists popped,
                    top :: below = popped ++ opstack' /\
                    forallb operatortypes popped = true /\
                    forallb (fun t => reduces_before t incoming) popped
                    = true /\
                    reduce_all popped valstack = Some valstack' /\
                    match opstack' with
                    | top :: _ =>
                        operatortypes top && reduces_before top incoming
                        = false
                    | [] => True
                    end).
    { intros Hop Hrb E.
      destruct (reduce (top :: below) valstack) as [[o v]|e] eqn:Er;
        [|discriminate].
      destruct (IH _ _ _ E) as (popped & -> & Hops & Hrbs & Hall & Htop).
      exists (top :: popped). repeat split.
      - cbn [forallb]. now rewrite Hop, Hops.
      - cbn [forallb]. now rewrite Hrb, Hrbs.
      - cbn [reduce_all]. now rewrite (reduce_top_only _ _ popped _ _ _ Er).
      - exact Htop. }
    destruct (operatortypes top) eqn:Hop; [|now apply Hstay].
    pose proof (eq_refl (reduces_before top incoming)) as Hrb.
    unfold reduces_before at 2 in Hrb.
    destruct (precedence top) as [tp|]; [|discriminate].
    destruct (precedence incoming) as [ip|]; [|discriminate].
    destruct (ip <? tp)%nat.
    + destruct (leftassoc top) as [la|] eqn:Hla.
      * now apply Hgo.
      * destruct top; discriminate.
    + destruct (tp =? ip)%nat.
      * destruct (leftassoc top) as [[|]|]; [now apply Hgo| |discriminate].
        apply Hstay; [|exact H]. now rewrite Hrb.
      * apply Hstay; [|exact H]. rewrite Hrb. now destruct (leftassoc top).
Qed.

Lemma finish_ok_inv :
  forall opstack valstack node,
    finish opstack valstack = Ok node ->
    forallb (fun t => negb (TokenType_beq t LPAREN)) opstack = true /\
    reduce_all opstack valstack = Some [node].
Proof.
  assert (Hd : forall opstack valstack v,
             drain opstack valstack = Ok v ->
             forallb (fun t => negb (TokenType_beq t LPAREN)) opstack = true /\
             reduce_all opstack valstack = Some v).
  { induction opstack as [|top below IH]; intros valstack v H.
    - inversion H; subst. now split.
    - cbn [drain] in H.
      destruct (TokenType_beq top LPAREN) eqn:El; [discriminate|].
      destruct (reduce (top :: below) valstack) as [[o v']|e] eqn:Er;
        [|discriminate].
      destruct (IH _ _ H) as [Hnl Hall]. split.
      + cbn [forallb]. now rewrite El, Hnl.
      + cbn [reduce_all]. now rewrite Er. }
  intros opstack valstack node H. unfold finish in H.
  destruct (drain opstack valstack) as [[|n [|m vs]]|e] eqn:Ed;
    try discriminate.
  inversion H; subst. now apply Hd.
Qed.

(** ** What a fold of operators keeps *)

Lemma stack_leaves_cons :
  forall node valstack,
    stack_leaves (node :: valstack) = stack_leaves valstack ++ leaves node.
Proof.
  intros node valstack. unfold stack_leaves. cbn [rev].
  rewrite flat_map_app. cbn [flat_map]. now rewrite app_nil_r.
Qed.

Lemma reduce_all_leaves :
  forall popped valstack valstack',
    reduce_all popped valstack = Some valstack' ->
    stack_leaves valstack' = stack_leaves valstack.
Proof.
  induction popped as [|op more IH]; intros valstack valstack' H.
  - now inversion H.
  - cbn [reduce_all] in H.
    destruct (reduce (op :: more) valstack) as [[o v]|e] eqn:Er;
      [|discriminate].
    apply reduce_ok_inv in Er.
    destruct Er as (op' & r & l & vs & _ & -> & ->).
    rewrite (IH _ _ H). rewrite !stack_leaves_cons. cbn [leaves].
    now rewrite <- app_assoc.
Qed.

Lemma reduce_all_length :
  forall popped valstack valstack',
    reduce_all popped valstack = Some valstack' ->
    length valstack' + length popped = length valstack.
Proof.
  induction popped as [|op more IH]; intros valstack valstack' H.
  - inversion H; subst. cbn. lia.
  - cbn [reduce_all] in H.
    destruct (reduce (op :: more) valstack) as [[o v]|e] eqn:Er;
      [|discriminate].
    apply reduce_ok_inv in Er.
    destruct Er as (op' & r & l & vs & _ & -> & ->).
    apply IH in H. cbn [length] in *. lia.
Qed.

Lemma reduce_all_binops :
  forall popped valstack valstack',
    reduce_all popped valstack = Some valstack' ->
    stack_binops valstack' = stack_binops valstack + length popped.
Proof.
  induction popped as [|op more IH]; intros valstack valstack' H.
  - inversion H; subst. cbn. lia.
  - cbn [reduce_all] in H.
    destruct (reduce (op :: more) valstack) as [[o v]|e] eqn:Er;
      [|discriminate].
    apply reduce_ok_inv in Er.
    destruct Er as (op' & r & l & vs & _ & -> & ->).
    apply IH in H. rewrite H. unfold stack_binops. simpl. lia.
Qed.

Lemma reduce_all_expr_tree :
  forall popped valstack valstack',
    forallb operatortypes popped = true ->
    forallb expr_tree valstack = true ->
    reduce_all popped valstack = Some valstack' ->
    forallb expr_tree valstack' = true.
Proof.
  induction popped as [|op more IH]; intros valstack valstack' Hops Hv H.
  - now inversion H; subst.
  - cbn [reduce_all] in H.
    destruct (reduce (op :: more) valstack) as [[o v]|e] eqn:Er;
      [|discriminate].
    apply reduce_ok_inv in Er.
    destruct Er as (op' & r & l & vs & Heq & -> & ->).
    inversion Heq; subst op'.
    cbn [forallb] in Hops, Hv.
    apply andb_true_iff in Hops as [Hop Hops].
    apply andb_true_iff in Hv as [Hr Hv].
    apply andb_true_iff in Hv as [Hl Hv].
    apply (IH _ _ Hops) in H; [exact H|].
    cbn [forallb expr_tree]. now rewrite Hop, Hl, Hr, Hv.
Qed.

(** ** Counting on stacks and token lists *)

Lemma count_kind_cons :
  forall p tok ts,
    count_kind p (tok :: ts)
    = (if p (tokentype tok) then 1 else 0) + count_kind p ts.
Proof.
  intros p tok ts. unfold count_kind. cbn [filter].
  now destruct (p (tokentype tok)).
Qed.

Ltac count_simpl :=
  cbn [length count_binops is_operand is_lparen is_rparen operatortypes
         TokenType_beq orb negb] in *.

Lemma stack_binops_cons :
  forall node valstack,
    stack_binops (node :: valstack)
    = count_binops node + stack_binops valstack.
Proof. reflexivity. Qed.

Lemma pending_cons :
  forall top below,
    pending (top :: below)
    = (if TokenType_beq top LPAREN then 0 else 1) + pending below.
Proof.
  intros top below. unfold pending. cbn [filter].
  now destruct (TokenType_beq top LPAREN).
Qed.

(** Popping entries that are not LPAREN markers. *)
Lemma pending_popped :
  forall popped below,
    forallb (fun t => negb (TokenType_beq t LPAREN)) popped = true ->
    pending (popped ++ below) = length popped + pending below /\
    lparens (popped ++ below) = lparens below.
Proof.
  induction popped as [|top popped IH]; intros below H.
  - now split.
  - cbn [forallb] in H. apply andb_true_iff in H as [Htop H].
    apply negb_true_iff in Htop.
    destruct (IH below H) as [Hp Hl]. cbn [app length].
    rewrite pending_cons, lparens_cons, Htop, Hp, Hl. now split.
Qed.

Lemma operators_not_lparen :
  forall popped,
    forallb operatortypes popped = true ->
    forallb (fun t => negb (TokenType_beq t LPAREN)) popped = true.
Proof.
  induction popped as [|top popped IH]; intros H; [reflexivity|].
  cbn [forallb] in *. apply andb_true_iff in H as [Htop H].
  rewrite (IH H). now destruct top.
Qed.

Lemma before_eof_cons :
  forall tok rest,
    tokentype tok <> EOF ->
    before_eof (tok :: rest) = tok :: before_eof rest.
Proof.
  intros tok rest H. cbn [before_eof].
  apply TokenType_beq_neq in H. now rewrite H.
Qed.

Lemma operator_not_eof :
  forall t, operatortypes t = true -> t <> EOF.
Proof. intros t H E. now subst. Qed.

(** ** Invariants of the successful runs *)

Ltac operator_kind H :=
  match type of H with
  | operatortypes (tokentype ?tok) = true =>
      let K := fresh "Hkind" in
      destruct (tokentype tok) eqn:K; try discriminate H
  end.

Lemma parse_loop_leaves :
  forall ts opstack valstack lparen_depths node ts',
    parse_loop ts opstack valstack lparen_depths = (Ok node, ts') ->
    leaves node = stack_leaves valstack ++ operand_nodes (before_eof ts).
Proof.
  apply (parse_loop_ok_ind
           (fun ts opstack valstack lparen_depths node =>
              leaves node
              = stack_leaves valstack ++ operand_nodes (before_eof ts))).
  - intros tok rest opstack valstack lparen_depths node Hk Hfin.
    apply finish_ok_inv in Hfin as [_ Hall].
    apply reduce_all_leaves in Hall. rewrite <- Hall.
    cbn [before_eof]. rewrite Hk. cbn. now rewrite !app_nil_r.
  - intros tok v next more opstack valstack lparen_depths node Hk Hv Hf IH.
    rewrite IH, stack_leaves_cons, (before_eof_cons tok) by congruence.
    unfold operand_nodes at 2. cbn [flat_map]. unfold operand_node at 1.
    rewrite Hk, Hv. cbn. now rewrite <- app_assoc.
  - intros tok next more opstack valstack lparen_depths node Hk Hf IH.
    rewrite IH, stack_leaves_cons, (before_eof_cons tok) by congruence.
    unfold operand_nodes at 2. cbn [flat_map]. unfold operand_node at 1.
    rewrite Hk. cbn. now rewrite <- app_assoc.
  - intros tok rest opstack valstack lparen_depths node Hk IH.
    rewrite IH, (before_eof_cons tok) by congruence.
    unfold operand_nodes at 2. cbn [flat_map]. unfold operand_node at 1.
    now rewrite Hk.
  - intros tok rest opstack valstack lparen_depths o v d node Hk Hc IH.
    apply close_paren_ok_inv in Hc
      as (popped & depth & _ & _ & _ & Hall & _).
    apply reduce_all_leaves in Hall.
    rewrite IH, Hall, (before_eof_cons tok) by congruence.
    unfold operand_nodes at 2. cbn [flat_map]. unfold operand_node at 1.
    now rewrite Hk.
  - intros tok rest opstack valstack lparen_depths o v node Hk _ _ Hw IH.
    apply reduce_while_ok_inv in Hw as (popped & _ & _ & _ & Hall & _).
    apply reduce_all_leaves in Hall.
    rewrite IH, Hall, (before_eof_cons tok) by now apply operator_not_eof.
    unfold operand_nodes at 2. cbn [flat_map]. unfold operand_node at 1.
    now operator_kind Hk.
Qed.

Lemma parse_loop_counts :
  forall ts opstack valstack lparen_depths node ts',
    parse_loop ts opstack valstack lparen_depths = (Ok node, ts') ->
    length valstack + count_kind is_operand (before_eof ts)
    = pending opstack + count_kind operatortypes (before_eof ts) + 1 /\
    stack_binops valstack + pending opstack
      + count_kind operatortypes (before_eof ts)
    = count_binops node.
Proof.
  apply (parse_loop_ok_ind
           (fun ts opstack valstack lparen_depths node =>
              length valstack + count_kind is_operand (before_eof ts)
              = pending opstack + count_kind operatortypes (before_eof ts) + 1
              /\
              stack_binops valstack + pending opstack
                + count_kind operatortypes (before_eof ts)
              = count_binops node)).
  - intros tok rest opstack valstack lparen_depths node Hk Hfin.
    apply finish_ok_inv in Hfin as [Hnl Hall].
    pose proof (reduce_all_length _ _ _ Hall) as Hlen.
    pose proof (reduce_all_binops _ _ _ Hall) as Hbin.
    destruct (pending_popped opstack [] Hnl) as [Hp _].
    rewrite app_nil_r in Hp.
    rewrite stack_binops_cons in Hbin.
    cbn [before_eof]. rewrite Hk. cbn [TokenType_beq].
    unfold count_kind. change (stack_binops []) with 0 in Hbin.
    change (pending []) with 0 in Hp.
    cbn [filter length] in *. lia.
  - intros tok v next more opstack valstack lparen_depths node Hk Hv Hf IH.
    rewrite (before_eof_cons tok) by congruence.
    rewrite !count_kind_cons, Hk. rewrite ?stack_binops_cons in IH.
    count_simpl. lia.
  - intros tok next more opstack valstack lparen_depths node Hk Hf IH.
    rewrite (before_eof_cons tok) by congruence.
    rewrite !count_kind_cons, Hk. rewrite ?stack_binops_cons in IH.
    count_simpl. lia.
  - intros tok rest opstack valstack lparen_depths node Hk IH.
    rewrite (before_eof_cons tok) by congruence.
    rewrite !count_kind_cons, Hk. rewrite pending_cons in IH.
    count_simpl. lia.
  - intros tok rest opstack valstack lparen_depths o v d node Hk Hc IH.
    apply close_paren_ok_inv in Hc
      as (popped & depth & -> & Hnl & _ & Hall & _).
    pose proof (reduce_all_length _ _ _ Hall) as Hlen.
    pose proof (reduce_all_binops _ _ _ Hall) as Hbin.
    destruct (pending_popped popped (LPAREN :: o) Hnl) as [Hp _].
    rewrite pending_cons in Hp.
    rewrite (before_eof_cons tok) by congruence.
    rewrite !count_kind_cons, Hk, Hp. count_simpl. lia.
  - intros tok rest opstack valstack lparen_depths o v node Hk _ _ Hw IH.
    apply reduce_while_ok_inv in Hw as (popped & -> & Hops & _ & Hall & _).
    pose proof (reduce_all_length _ _ _ Hall) as Hlen.
    pose proof (reduce_all_binops _ _ _ Hall) as Hbin.
    destruct (pending_popped popped o (operators_not_lparen _ Hops))
      as [Hp _].
    rewrite (before_eof_cons tok) by now apply operator_not_eof.
    rewrite !count_kind_cons, Hk, Hp. rewrite pending_cons in IH.
    operator_kind Hk; count_simpl; lia.
Qed.

Lemma parse_loop_parens :
  forall ts opstack valstack lparen_depths node ts',
    parse_loop ts opstack valstack lparen_depths = (Ok node, ts') ->
    lparens opstack + count_kind is_lparen (before_eof ts)
    = count_kind is_rparen (before_eof ts) /\
    (forall p1 p2,
        before_eof ts = p1 ++ p2 ->
        count_kind is_rparen p1
        <= lparens opstack + count_kind is_lparen p1).
Proof.
  assert (Hstep : forall (tok : Token) pre (n m : nat),
             (forall p1 p2, pre = p1 ++ p2 ->
                            count_kind is_rparen p1
                            <= n + count_kind is_lparen p1) ->
             (if is_rparen (tokentype tok) then 1 else 0) + n
             <= m + (if is_lparen (tokentype tok) then 1 else 0) ->
             forall p1 p2, tok :: pre = p1 ++ p2 ->
                           count_kind is_rparen p1
                           <= m + count_kind is_lparen p1).
  { intros tok pre n m Hpre Hle [|t p1] p2 E.
    - unfold count_kind. cbn [filter length]. lia.
    - cbn [app] in E. inversion E; subst.
      specialize (Hpre p1 p2 eq_refl). rewrite !count_kind_cons. lia. }
  apply (parse_loop_ok_ind
           (fun ts opstack valstack lparen_depths node =>
              lparens opstack + count_kind is_lparen (before_eof ts)
              = count_kind is_rparen (before_eof ts) /\
              (forall p1 p2,
                  before_eof ts = p1 ++ p2 ->
                  count_kind is_rparen p1
                  <= lparens opstack + count_kind is_lparen p1))).
  - intros tok rest opstack valstack lparen_depths node Hk Hfin.
    apply finish_ok_inv in Hfin as [Hnl _].
    destruct (pending_popped opstack [] Hnl) as [_ Hl].
    rewrite app_nil_r in Hl.
    cbn [before_eof]. rewrite Hk. cbn [TokenType_beq]. split.
    + rewrite Hl. reflexivity.
    + intros [|t p1] p2 E; [|discriminate].
      unfold count_kind. cbn [filter length]. lia.
  - intros tok v next more opstack valstack lparen_depths node Hk Hv Hf
           [IH1 IH2].
    rewrite (before_eof_cons tok) by congruence. split.
    + rewrite !count_kind_cons, Hk. count_simpl. lia.
    + apply (Hstep tok _ _ _ IH2). rewrite Hk. count_simpl. lia.
  - intros tok next more opstack valstack lparen_depths node Hk Hf [IH1 IH2].
    rewrite (before_eof_cons tok) by congruence. split.
    + rewrite !count_kind_cons, Hk. count_simpl. lia.
    + apply (Hstep tok _ _ _ IH2). rewrite Hk. count_simpl. lia.
  - intros tok rest opstack valstack lparen_depths node Hk [IH1 IH2].
    rewrite (before_eof_cons tok) by congruence. rewrite lparens_cons in IH1, IH2.
    cbn [TokenType_beq] in IH1, IH2. split.
    + rewrite !count_kind_cons, Hk. count_simpl. lia.
    + apply (Hstep tok _ _ _ IH2). rewrite Hk. count_simpl. lia.
  - intros tok rest opstack valstack lparen_depths o v d node Hk Hc [IH1 IH2].
    apply close_paren_ok_inv in Hc
      as (popped & depth & -> & Hnl & _ & _ & _).
    destruct (pending_popped popped (LPAREN :: o) Hnl) as [_ Hl].
    rewrite lparens_cons in Hl. cbn [TokenType_beq] in Hl.
    rewrite (before_eof_cons tok) by congruence. rewrite Hl. split.
    + rewrite !count_kind_cons, Hk. count_simpl. lia.
    + apply (Hstep tok _ _ _ IH2). rewrite Hk. count_simpl. lia.
  - intros tok rest opstack valstack lparen_depths o v node Hk _ _ Hw
           [IH1 IH2].
    apply reduce_while_ok_inv in Hw as (popped & -> & Hops & _ & _ & _).
    destruct (pending_popped popped o (operators_not_lparen _ Hops))
      as [_ Hl].
    rewrite (before_eof_cons tok) by now apply operator_not_eof.
    rewrite lparens_cons in IH1, IH2. rewrite Hl.
    operator_kind Hk; cbn [TokenType_beq] in IH1, IH2; (split;
      [ rewrite !count_kind_cons, Hkind; count_simpl; lia
      | apply (Hstep tok _ _ _ IH2); rewrite Hkind; count_simpl; lia ]).
Qed.

Lemma parse_loop_expr_tree :
  forall ts opstack valstack lparen_depths node ts',
    parse_loop ts opstack valstack lparen_depths = (Ok node, ts') ->
    forallb marker_ok opstack = true ->
    forallb expr_tree valstack = true ->
    expr_tree node = true.
Proof.
  assert (Hsplit : forall popped below,
             forallb marker_ok (popped ++ below) = true ->
             forallb (fun t => negb (TokenType_beq t LPAREN)) popped = true ->
             forallb operatortypes popped = true /\
             forallb marker_ok below = true).
  { induction popped as [|top popped IH]; intros below Hm Hnl.
    - now split.
    - cbn [app forallb] in *.
      apply andb_true_iff in Hm as [Htop Hm].
      apply andb_true_iff in Hnl as [Hn Hnl].
      destruct (IH below Hm Hnl) as [Hops Hb].
      apply negb_true_iff in Hn.
      rewrite (marker_not_lparen _ Htop Hn), Hops. now split. }
  apply (parse_loop_ok_ind
           (fun ts opstack valstack lparen_depths node =>
              forallb marker_ok opstack = true ->
              forallb expr_tree valstack = true ->
              expr_tree node = true)).
  - intros tok rest opstack valstack lparen_depths node Hk Hfin Hm Hv.
    apply finish_ok_inv in Hfin as [Hnl Hall].
    destruct (Hsplit opstack [] ltac:(now rewrite app_nil_r) Hnl)
      as [Hops _].
    pose proof (reduce_all_expr_tree _ _ _ Hops Hv Hall) as Hres.
    cbn [forallb] in Hres. now apply andb_true_iff in Hres as [Hres _].
  - intros tok v next more opstack valstack lparen_depths node _ _ _ IH Hm Hv.
    apply IH; [exact Hm|]. cbn [forallb expr_tree]. exact Hv.
  - intros tok next more opstack valstack lparen_depths node _ _ IH Hm Hv.
    apply IH; [exact Hm|]. cbn [forallb expr_tree]. exact Hv.
  - intros tok rest opstack valstack lparen_depths node _ IH Hm Hv.
    apply IH; [|exact Hv]. cbn [forallb]. now rewrite Hm.
  - intros tok rest opstack valstack lparen_depths o v d node _ Hc IH Hm Hv.
    apply close_paren_ok_inv in Hc
      as (popped & depth & -> & Hnl & _ & Hall & _).
    destruct (Hsplit _ _ Hm Hnl) as [Hops Hb].
    cbn [forallb] in Hb. apply andb_true_iff in Hb as [_ Hb].
    apply IH; [exact Hb|]. now apply (reduce_all_expr_tree _ _ _ Hops Hv).
  - intros tok rest opstack valstack lparen_depths o v node Hk _ _ Hw IH Hm Hv.
    apply reduce_while_ok_inv in Hw as (popped & -> & Hops & _ & Hall & _).
    destruct (Hsplit _ _ Hm (operators_not_lparen _ Hops)) as [_ Hb].
    apply IH.
    + cbn [forallb]. unfold marker_ok at 1. rewrite Hk, Hb.
      now rewrite orb_true_r.
    + now apply (reduce_all_expr_tree _ _ _ Hops Hv).
Qed.

(** ** Parsing a written-out tree *)

Lemma operator_follows_operand :
  forall op, operatortypes op = true -> follows_operand op = true.
Proof. intros op H. unfold follows_operand. now rewrite H. Qed.

(** A leaf token in front of a token that may follow an operand is pushed. *)
Lemma parse_loop_leaf :
  forall leaf next more opstack valstack lparen_depths,
    is_leaf leaf = true ->
    follows_operand (tokentype next) = true ->
    parse_loop (leaf_token leaf :: next :: more) opstack valstack
      lparen_depths
    = parse_loop (next :: more) opstack (leaf :: valstack) lparen_depths.
Proof.
  intros leaf next more opstack valstack lparen_depths Hleaf Hf.
  destruct leaf; try discriminate; cbn [leaf_token parse_loop tokentype
    intlit varref intvalue lexeme TokenType_beq]; now rewrite Hf.
Qed.

(** The main loop, run over a written-out tree, pushes that tree. *)
Lemma parse_loop_unparse :
  forall node,
    expr_tree node = true ->
    forall rest opstack valstack lparen_depths,
      (is_leaf node = true ->
       exists next more,
         rest = next :: more /\ follows_operand (tokentype next) = true) ->
      parse_loop (unparse node ++ rest) opstack valstack lparen_depths
      = parse_loop rest opstack (node :: valstack) lparen_depths.
Proof.
  induction node as [| | | | |op l IHl r IHr]; intros Hexpr; try discriminate.
  - intros rest opstack valstack lparen_depths Hnext.
    destruct (Hnext eq_refl) as (next & more & -> & Hf).
    now apply (parse_loop_leaf (IntLitNode value)).
  - intros rest opstack valstack lparen_depths Hnext.
    destruct (Hnext eq_refl) as (next & more & -> & Hf).
    now apply (parse_loop_leaf (VarRefNode varname)).
  - intros rest opstack valstack lparen_depths _.
    cbn [expr_tree] in Hexpr.
    apply andb_true_iff in Hexpr as [Hexpr Hr].
    apply andb_true_iff in Hexpr as [Hop Hl].
    cbn [unparse app]. cbn [parse_loop tokentype tk TokenType_beq].
    rewrite <- app_assoc. cbn [app].
    rewrite (IHl Hl)
      by (intros _; eexists; eexists; split;
          [reflexivity|now apply operator_follows_operand]).
    assert (Hguard : operator_after_lparen (LPAREN :: opstack) (l :: valstack)
                       (length valstack :: lparen_depths) = false).
    { cbn [operator_after_lparen TokenType_beq andb length].
      apply Nat.eqb_neq. lia. }
    assert (Hstep : parse_loop (tk op :: unparse r ++ tk RPAREN :: rest)
                      (LPAREN :: opstack) (l :: valstack)
                      (length valstack :: lparen_depths)
                    = parse_loop (unparse r ++ tk RPAREN :: rest)
                        (op :: LPAREN :: opstack) (l :: valstack)
                        (length valstack :: lparen_depths)).
    { cbn [parse_loop tokentype tk]. rewrite Hguard.
      destruct op; try discriminate Hop; reflexivity. }
    rewrite <- app_assoc. cbn [app]. rewrite Hstep.
    rewrite (IHr Hr)
      by (intros _; eexists; eexists; split; reflexivity).
    cbn [parse_loop tokentype tk TokenType_beq].
    destruct op; try discriminate Hop; reflexivity.
Qed.

(* ================================================================= *)
(** ** X1: every expression tree is the parse of its written-out form *)

(** X1.  Write an expression tree (literal and variable leaves, operator
    nodes) out with one pair of parentheses around every operator node.
    [parse_expression] on these tokens, followed by an EOF token and anything
    else, returns exactly that tree and stops in front of the EOF; [parse] on
    the assignment with this right-hand side returns the [AssignNode] and
    consumes the EOF. *)
Theorem unparse_round_trip :
  forall node eof rest,
    expr_tree node = true ->
    tokentype eof = EOF ->
    parse_expression (unparse node ++ eof :: rest) = (Ok node, eof :: rest) /\
    (forall lhs asg x,
        tokentype lhs = VARREF -> lexeme lhs = Some x ->
        tokentype asg = ASSIGN ->
        parse (lhs :: asg :: unparse node ++ eof :: rest)
        = (Ok (AssignNode x node), rest)).
Proof.
  intros node eof rest Hexpr Heof.
  assert (Hrhs : parse_expression (unparse node ++ eof :: rest)
                 = (Ok node, eof :: rest)).
  { unfold parse_expression.
    rewrite (parse_loop_unparse node Hexpr).
    - cbn [parse_loop]. now rewrite Heof.
    - intros _. exists eof, rest. split; [reflexivity|]. now rewrite Heof. }
  split; [exact Hrhs|].
  intros lhs asg x Hk Hx Hasg.
  unfold parse, bind, peek, read. rewrite Hk. cbn [TokenType_beq].
  unfold expect, bind, peek, read, raise, ret.
  rewrite Hasg. cbn [TokenType_beq]. rewrite Hrhs, Hx, Heof. reflexivity.
Qed.

Lemma unparse_round_trip_witness :
  parse_expression
    [tk LPAREN; tk LPAREN; intlit 1; tk MINUS; varref "y"; tk RPAREN;
     tk EXPONENT; intlit 2; tk RPAREN; tk EOF]
  = (Ok (BinOpNode EXPONENT
           (BinOpNode MINUS (IntLitNode 1) (VarRefNode "y"))
           (IntLitNode 2)), [tk EOF]).
Proof.
  exact (proj1 (unparse_round_trip
                  (BinOpNode EXPONENT
                     (BinOpNode MINUS (IntLitNode 1) (VarRefNode "y"))
                     (IntLitNode 2))
                  (tk EOF) [] eq_refl eq_refl)).
Defined.

(* ================================================================= *)
(** ** X2: operands keep their order *)

(** X2.  When [parse_expression] returns a tree, the leaves of the tree read
    from left to right are the operands of the input in input order: one
    [IntLitNode] per INTLIT token and one [VarRefNode] per VARREF token in
    front of the first EOF, and nothing else. *)
Theorem operands_in_order :
  forall ts node ts',
    parse_expression ts = (Ok node, ts') ->
    leaves node = operand_nodes (before_eof ts).
Proof.
  intros ts node ts' H. unfold parse_expression in H.
  now apply parse_loop_leaves in H.
Qed.

Lemma operands_in_order_witness :
  leaves
    (BinOpNode MINUS (IntLitNode 1)
       (BinOpNode TIMES (BinOpNode PLUS (VarRefNode "y") (IntLitNode 2))
          (IntLitNode 3)))
  = operand_nodes
      (before_eof
         [intlit 1; tk MINUS; tk LPAREN; varref "y"; tk PLUS; intlit 2;
          tk RPAREN; tk TIMES; intlit 3; tk EOF; intlit 7]).
Proof.
  apply (operands_in_order
           [intlit 1; tk MINUS; tk LPAREN; varref "y"; tk PLUS; intlit 2;
            tk RPAREN; tk TIMES; intlit 3; tk EOF; intlit 7]
           _ [tk EOF; intlit 7]).
  reflexivity.
Defined.

(* ================================================================= *)
(** ** X3: what every accepted expression satisfies *)

(** X3.  When [parse_expression] returns a tree, the tokens in front of the
    first EOF hold exactly one operand more than operators, as many LPAREN as
    RPAREN tokens, and no prefix of them holds more RPAREN than LPAREN
    tokens; the tree has one [BinOpNode] per operator token. *)
Theorem accepted_expression_counts :
  forall ts node ts',
    parse_expression ts = (Ok node, ts') ->
    count_kind is_operand (before_eof ts)
    = S (count_kind operatortypes (before_eof ts)) /\
    count_kind is_lparen (before_eof ts)
    = count_kind is_rparen (before_eof ts) /\
    (forall p1 p2,
        before_eof ts = p1 ++ p2 ->
        count_kind is_rparen p1 <= count_kind is_lparen p1) /\
    count_binops node = count_kind operatortypes (before_eof ts).
Proof.
  intros ts node ts' H. unfold parse_expression in H.
  destruct (parse_loop_counts _ _ _ _ _ _ H) as [Hc Hb].
  destruct (parse_loop_parens _ _ _ _ _ _ H) as [Hp Hpre].
  change (pending []) with 0 in *. change (lparens []) with 0 in *.
  change (stack_binops []) with 0 in *. cbn [length] in Hc.
  repeat split; try lia.
  intros p1 p2 E. specialize (Hpre p1 p2 E). lia.
Qed.

Lemma accepted_expression_counts_witness :
  count_kind is_operand
    (before_eof [tk LPAREN; intlit 1; tk PLUS; intlit 2; tk RPAREN; tk EOF])
  = 2 /\
  count_kind is_lparen
    (before_eof [tk LPAREN; intlit 1; tk PLUS; intlit 2; tk RPAREN; tk EOF])
  = count_kind is_rparen
      (before_eof [tk LPAREN; intlit 1; tk PLUS; intlit 2; tk RPAREN; tk EOF]).
Proof.
  destruct (accepted_expression_counts
              [tk LPAREN; intlit 1; tk PLUS; intlit 2; tk RPAREN; tk EOF]
              (BinOpNode PLUS (IntLitNode 1) (IntLitNode 2)) [tk EOF]
              eq_refl) as (Hops & Hpar & _ & _).
  split; [exact Hops|exact Hpar].
Defined.

(* ================================================================= *)
(** ** X4: what [parse] accepts *)

(** X4.  [parse] returns a tree in exactly three cases: a PRINT token with
    its name followed by an EOF token ([PrintNode]); an INTDEC token with its
    name followed by an EOF token ([IntDclNode]); a VARREF token with its
    lexeme, an ASSIGN token, and tokens on which [parse_expression] returns a
    tree ([AssignNode]).  In each case the stream left is what follows the
    EOF token.  The tree under an [AssignNode] is an expression tree:
    literal and variable leaves and operator nodes only. *)
Theorem parse_accepts_exactly :
  forall ts node ts',
    (parse ts = (Ok node, ts') <->
     (exists t eof n,
         ts = t :: eof :: ts' /\ tokentype t = PRINT /\ name t = Some n /\
         tokentype eof = EOF /\ node = PrintNode n) \/
     (exists t eof n,
         ts = t :: eof :: ts' /\ tokentype t = INTDEC /\ name t = Some n /\
         tokentype eof = EOF /\ node = IntDclNode n) \/
     (exists lhs asg rhs x e eof,
         ts = lhs :: asg :: rhs /\ tokentype lhs = VARREF /\
         lexeme lhs = Some x /\ tokentype asg = ASSIGN /\
         parse_expression rhs = (Ok e, eof :: ts') /\
         expr_tree e = true /\ node = AssignNode x e)).
Proof.
  intros ts node ts'. split.
  - intros H.
    destruct ts as [|t rest]; [discriminate|].
    unfold parse, bind, peek, read in H.
    destruct (TokenType_beq (tokentype t) PRINT) eqn:Hprint.
    { apply TokenType_beq_eq in Hprint. left.
      destruct (name t) as [n|] eqn:Hn; [|discriminate].
      unfold expect, bind, peek, read, raise, ret in H.
      destruct rest as [|eof more]; [discriminate|].
      destruct (TokenType_beq (tokentype eof) EOF) eqn:He; [|discriminate].
      apply TokenType_beq_eq in He. inversion H; subst.
      now exists t, eof, n. }
    destruct (TokenType_beq (tokentype t) INTDEC) eqn:Hdec.
    { apply TokenType_beq_eq in Hdec. right. left.
      destruct (name t) as [n|] eqn:Hn; [|discriminate].
      unfold expect, bind, peek, read, raise, ret in H.
      destruct rest as [|eof more]; [discriminate|].
      destruct (TokenType_beq (tokentype eof) EOF) eqn:He; [|discriminate].
      apply TokenType_beq_eq in He. inversion H; subst.
      now exists t, eof, n. }
    destruct (TokenType_beq (tokentype t) VARREF) eqn:Hvar; [|discriminate].
    apply TokenType_beq_eq in Hvar. right. right.
    unfold expect, bind, peek, read, raise, ret in H.
    destruct rest as [|asg rhs]; [discriminate|].
    destruct (TokenType_beq (tokentype asg) ASSIGN) eqn:Hasg; [|discriminate].
    apply TokenType_beq_eq in Hasg.
    destruct (parse_expression rhs) as [[e|ex] ts1] eqn:Hrhs; [|discriminate].
    destruct (lexeme t) as [x|] eqn:Hx; [|discriminate].
    destruct ts1 as [|eof more]; [discriminate|].
    destruct (TokenType_beq (tokentype eof) EOF); [|discriminate].
    inversion H; subst.
    exists t, asg, rhs, x, e, eof. repeat split; auto.
    unfold parse_expression in Hrhs.
    now apply (parse_loop_expr_tree _ _ _ _ _ _ Hrhs).
  - intros [(t & eof & n & -> & Hk & Hn & He & ->)
           |[(t & eof & n & -> & Hk & Hn & He & ->)
            |(lhs & asg & rhs & x & e & eof & -> & Hk & Hx & Hasg & Hrhs
              & _ & ->)]].
    + unfold parse, bind, peek, read. rewrite Hk. cbn [TokenType_beq].
      rewrite Hn. unfold expect, bind, peek, read, raise, ret.
      now rewrite He.
    + unfold parse, bind, peek, read. rewrite Hk. cbn [TokenType_beq].
      rewrite Hn. unfold expect, bind, peek, read, raise, ret.
      now rewrite He.
    + pose proof Hrhs as Hstop. unfold parse_expression in Hstop.
      apply parse_loop_stops_at_eof in Hstop.
      destruct Hstop as (pre & eof' & more & _ & Heq & He & _).
      inversion Heq; subst eof' more.
      unfold parse, bind, peek, read. rewrite Hk. cbn [TokenType_beq].
      unfold expect, bind, peek, read, raise, ret.
      rewrite Hasg. cbn [TokenType_beq]. rewrite Hrhs, Hx, He. reflexivity.
Qed.

Lemma parse_accepts_exactly_witness :
  exists lhs asg rhs x e eof,
    [varref "x"; tk ASSIGN; intlit 1; tk PLUS; intlit 2; tk EOF]
    = lhs :: asg :: rhs /\ tokentype lhs = VARREF /\
    lexeme lhs = Some x /\ tokentype asg = ASSIGN /\
    parse_expression rhs = (Ok e, eof :: []) /\
    expr_tree e = true /\
    AssignNode "x" (BinOpNode PLUS (IntLitNode 1) (IntLitNode 2))
    = AssignNode x e.
Proof.
  destruct (proj1 (parse_accepts_exactly
                     [varref "x"; tk ASSIGN; intlit 1; tk PLUS; intlit 2;
                      tk EOF]
                     (AssignNode "x"
                        (BinOpNode PLUS (IntLitNode 1) (IntLitNode 2)))
                     []) eq_refl)
    as [(t & eof & n & Heq & _)|[(t & eof & n & Heq & _)|H]].
  - discriminate Heq.
  - discriminate Heq.
  - exact H.
Defined.

(* ================================================================= *)
(** ** X5: nothing behind the first EOF token is looked at *)

Lemma parse_loop_local :
  forall pre eof rest opstack valstack lparen_depths,
    Forall (fun t => tokentype t <> EOF) pre ->
    tokentype eof = EOF ->
    parse_loop (pre ++ eof :: rest) opstack valstack lparen_depths
    = (fst (parse_loop (pre ++ [eof]) opstack valstack lparen_depths),
       snd (parse_loop (pre ++ [eof]) opstack valstack lparen_depths)
         ++ rest).
Proof.
  induction pre as [|tok pre IH];
    intros eof rest opstack valstack lparen_depths Hpre Heof.
  - cbn [app parse_loop]. now rewrite Heof.
  - inversion Hpre as [|? ? Hne Hpre']; subst.
    apply TokenType_beq_neq in Hne.
    assert (Hnext : exists next more more',
               pre ++ eof :: rest = next :: more /\
               pre ++ [eof] = next :: more').
    { destruct pre as [|next pre'].
      - now exists eof, rest, [].
      - now exists next, (pre' ++ eof :: rest), (pre' ++ [eof]). }
    destruct Hnext as (next & more & more' & Hlong & Hshort).
    cbn [app parse_loop]. rewrite Hne.
    destruct (TokenType_beq (tokentype tok) INTLIT).
    { destruct (intvalue tok); [|cbn [fst snd]; now rewrite <- app_assoc].
      rewrite Hlong, Hshort.
      destruct (follows_operand (tokentype next)).
      - rewrite <- Hlong, <- Hshort. now apply IH.
      - cbn [fst snd]. now rewrite <- Hlong, <- Hshort, <- app_assoc. }
    destruct (TokenType_beq (tokentype tok) VARREF).
    { rewrite Hlong, Hshort.
      destruct (follows_operand (tokentype next)).
      - rewrite <- Hlong, <- Hshort. now apply IH.
      - cbn [fst snd]. now rewrite <- Hlong, <- Hshort, <- app_assoc. }
    destruct (TokenType_beq (tokentype tok) LPAREN); [now apply IH|].
    destruct (TokenType_beq (tokentype tok) RPAREN).
    { destruct (close_paren false opstack valstack lparen_depths)
        as [[[o v] d]|e]; [now apply IH|].
      cbn [fst snd]. now rewrite <- app_assoc. }
    destruct (operatortypes (tokentype tok)).
    + destruct valstack as [|top vs];
        [cbn [fst snd]; now rewrite <- app_assoc|].
      destruct (operator_after_lparen opstack (top :: vs) lparen_depths);
        [cbn [fst snd]; now rewrite <- app_assoc|].
      destruct (reduce_while (tokentype tok) opstack (top :: vs))
        as [[o v]|e]; [now apply IH|].
      cbn [fst snd]. now rewrite <- app_assoc.
    + cbn [fst snd app]. now rewrite <- app_assoc.
Qed.

(** X5.  Let [pre] hold no EOF token and let [eof] be an EOF token.  On
    [pre ++ eof :: rest], [parse_expression] and [parse] give the outcome
    they give on [pre ++ [eof]], and leave the stream they leave there with
    [rest] appended: the tokens behind the first EOF are neither read nor
    looked at. *)
Theorem nothing_read_past_eof :
  forall pre eof rest,
    Forall (fun t => tokentype t <> EOF) pre ->
    tokentype eof = EOF ->
    parse_expression (pre ++ eof :: rest)
    = (fst (parse_expression (pre ++ [eof])),
       snd (parse_expression (pre ++ [eof])) ++ rest) /\
    parse (pre ++ eof :: rest)
    = (fst (parse (pre ++ [eof])), snd (parse (pre ++ [eof])) ++ rest).
Proof.
  intros pre eof rest Hpre Heof.
  split; [now apply parse_loop_local|].
  destruct pre as [|t pre].
  - cbn [app]. unfold parse, bind, peek, read, raise. rewrite Heof.
    reflexivity.
  - inversion Hpre as [|? ? Hne Hpre']; subst.
    assert (Hnext : exists next more more',
               pre ++ eof :: rest = next :: more /\
               pre ++ [eof] = next :: more' /\
               more = more' ++ rest /\
               (pre = [] /\ next = eof \/
                exists pre'', pre = next :: pre'' /\ more' = pre'' ++ [eof])).
    { destruct pre as [|next pre''].
      - exists eof, rest, []. repeat split. now left.
      - exists next, (pre'' ++ eof :: rest), (pre'' ++ [eof]).
        repeat split; [now rewrite <- app_assoc|].
        right. now exists pre''. }
    destruct Hnext as (next & more & more' & Hlong & Hshort & Hmore & Hcase).
    cbn [app]. unfold parse, bind, peek, read.
    destruct (TokenType_beq (tokentype t) PRINT).
    { destruct (name t); [|cbn; now rewrite <- app_assoc].
      unfold expect, bind, peek, read, raise, ret.
      rewrite Hlong, Hshort, Hmore.
      now destruct (TokenType_beq (tokentype next) EOF). }
    destruct (TokenType_beq (tokentype t) INTDEC).
    { destruct (name t); [|cbn; now rewrite <- app_assoc].
      unfold expect, bind, peek, read, raise, ret.
      rewrite Hlong, Hshort, Hmore.
      now destruct (TokenType_beq (tokentype next) EOF). }
    destruct (TokenType_beq (tokentype t) VARREF);
      [|cbn; unfold raise; cbn; now rewrite <- app_assoc].
    unfold expect, bind, peek, read, raise, ret.
    rewrite Hlong, Hshort.
    destruct (TokenType_beq (tokentype next) ASSIGN) eqn:Hasg;
      [|cbn; now rewrite Hmore].
    destruct Hcase as [[-> ->]|(pre'' & -> & ->)].
    { rewrite Heof in Hasg. discriminate. }
    inversion Hpre' as [|? ? _ Hpre'']; subst.
    clear Hlong Hshort. rewrite <- app_assoc. cbn [app].
    unfold parse_expression.
    rewrite (parse_loop_local pre'' eof rest [] [] [] Hpre'' Heof).
    destruct (parse_loop (pre'' ++ [eof]) [] [] []) as [[e|ex] ts1] eqn:Hrhs;
      cbn [fst snd]; [|reflexivity].
    destruct (lexeme t); [|reflexivity].
    apply parse_loop_stops_at_eof in Hrhs.
    destruct Hrhs as (p & eof' & more & _ & -> & He & _).
    cbn [app]. now rewrite He.
Qed.

Lemma nothing_read_past_eof_witness :
  parse [varref "x"; tk ASSIGN; intlit 1; tk EOF; tk RPAREN; intlit 2]
  = (fst (parse [varref "x"; tk ASSIGN; intlit 1; tk EOF]),
     snd (parse [varref "x"; tk ASSIGN; intlit 1; tk EOF])
       ++ [tk RPAREN; intlit 2]).
Proof.
  apply (proj2 (nothing_read_past_eof
                  [varref "x"; tk ASSIGN; intlit 1] (tk EOF)
                  [tk RPAREN; intlit 2]
                  ltac:(repeat constructor; discriminate) eq_refl)).
Defined.

(* ================================================================= *)
(** ** X6: the guarded lookups and pops never fail *)

Lemma only_parse_errors_no_python :
  forall A (r : result A),
    only_parse_errors r = true ->
    no_python_error r = true /\ no_end_of_stream r = true.
Proof.
  intros A [a|[m|k| |]] H; try discriminate; now split.
Qed.

Lemma parse_loop_no_python_error :
  forall ts opstack valstack lparen_depths,
    lparens opstack = length lparen_depths ->
    no_python_error (fst (parse_loop ts opstack valstack lparen_depths))
    = true.
Proof.
  induction ts as [|tok rest IH];
    intros opstack valstack lparen_depths Hlen.
  - reflexivity.
  - cbn [parse_loop].
    destruct (TokenType_beq (tokentype tok) EOF).
    { apply only_parse_errors_no_python, finish_only_parse_errors. }
    destruct (TokenType_beq (tokentype tok) INTLIT).
    { destruct (intvalue tok); [|reflexivity].
      destruct rest as [|next more]; [reflexivity|].
      destruct (follows_operand (tokentype next)); [now apply IH|reflexivity]. }
    destruct (TokenType_beq (tokentype tok) VARREF).
    { destruct rest as [|next more]; [reflexivity|].
      destruct (follows_operand (tokentype next)); [now apply IH|reflexivity]. }
    destruct (TokenType_beq (tokentype tok) LPAREN).
    { apply IH. rewrite lparens_cons. cbn. now rewrite Hlen. }
    destruct (TokenType_beq (tokentype tok) RPAREN).
    { destruct (close_paren_only_parse_errors opstack false valstack
                  lparen_depths Hlen) as [Hc Hres].
      destruct (close_paren false opstack valstack lparen_depths)
        as [[[o v] d]|e].
      - apply IH. now apply (Hres o v d).
      - now apply only_parse_errors_no_python in Hc. }
    destruct (operatortypes (tokentype tok)) eqn:Hop; [|reflexivity].
    destruct valstack as [|top vs]; [reflexivity|].
    destruct (operator_after_lparen opstack (top :: vs) lparen_depths);
      [reflexivity|].
    destruct (reduce_while_only_parse_errors (tokentype tok) opstack
                (top :: vs) Hop) as [Hw Hres].
    destruct (reduce_while (tokentype tok) opstack (top :: vs))
      as [[o v]|e].
    + apply IH. rewrite lparens_cons.
      replace (TokenType_beq (tokentype tok) LPAREN) with false
        by (now destruct (tokentype tok)).
      rewrite <- Hlen. exact (Hres o v eq_refl).
    + now apply only_parse_errors_no_python in Hw.
Qed.

(** X6.  On every token stream, [parse_expression] and [parse] never fail
    with a [KeyError] from the lookups in [precedence] and [leftassoc], nor
    with an [IndexError] from [lparen_depths.pop()]: every lookup is made on
    an operator kind, and [lparen_depths] holds one entry per LPAREN marker
    of the operator stack.  When the stream holds an EOF token they never
    read past its end either, so a tree or a [ParseError] is all they give. *)
Theorem lookups_and_pops_are_safe :
  forall ts,
    no_python_error (fst (parse_expression ts)) = true /\
    no_python_error (fst (parse ts)) = true /\
    (terminated ts ->
     only_parse_errors (fst (parse_expression ts)) = true /\
     only_parse_errors (fst (parse ts)) = true).
Proof.
  intros ts.
  assert (Hexpr : forall ts0,
             no_python_error (fst (parse_expression ts0)) = true).
  { intros ts0. now apply parse_loop_no_python_error. }
  split; [apply Hexpr|]. split; [|apply parse_only_parse_errors].
  destruct ts as [|t rest]; [reflexivity|].
  unfold parse, bind, peek, read.
  destruct (TokenType_beq (tokentype t) PRINT).
  { destruct (name t); [|reflexivity].
    unfold expect, bind, peek, read, raise, ret.
    destruct rest as [|next more]; [reflexivity|].
    now destruct (TokenType_beq (tokentype next) EOF). }
  destruct (TokenType_beq (tokentype t) INTDEC).
  { destruct (name t); [|reflexivity].
    unfold expect, bind, peek, read, raise, ret.
    destruct rest as [|next more]; [reflexivity|].
    now destruct (TokenType_beq (tokentype next) EOF). }
  destruct (TokenType_beq (tokentype t) VARREF); [|reflexivity].
  unfold expect, bind, peek, read, raise, ret.
  destruct rest as [|asg rhs]; [reflexivity|].
  destruct (TokenType_beq (tokentype asg) ASSIGN); [|reflexivity].
  specialize (Hexpr rhs).
  destruct (parse_expression rhs) as [[e|ex] ts1]; [|exact Hexpr].
  destruct (lexeme t); [|reflexivity].
  destruct ts1 as [|eof more]; [reflexivity|].
  now destruct (TokenType_beq (tokentype eof) EOF).
Qed.

Lemma lookups_and_pops_are_safe_witness :
  only_parse_errors
    (fst (parse [varref "x"; tk ASSIGN; tk LPAREN; intlit 1; tk EXPONENT;
                 tk RPAREN; tk EOF])) = true.
Proof.
  apply (proj2 (proj2 (lookups_and_pops_are_safe
                         [varref "x"; tk ASSIGN; tk LPAREN; intlit 1;
                          tk EXPONENT; tk RPAREN; tk EOF]))).
  unfold terminated. repeat (first [now apply Exists_cons_hd
                                   | apply Exists_cons_tl]).
Defined.

(* ================================================================= *)
(** ** X7: an operator needs an operand on its left *)

(** X7.  There is no unary operator.  From any state of the operator stack,
    an operator token met while the value stack is empty raises "expected two
    operands for operator ..."; and an operator token that directly follows
    an LPAREN token raises "expected lparen, intlit, or varref after lparen"
    when the value stack is not empty (the height recorded in [lparen_depths]
    is the current one).  In both cases the operator token has been read. *)
Theorem operator_needs_left_operand :
  forall tok,
    operatortypes (tokentype tok) = true ->
    (forall rest opstack lparen_depths,
        parse_loop (tok :: rest) opstack [] lparen_depths
        = (Raise (ParseError (TwoOperands (tokentype tok))), rest)) /\
    (forall lp rest opstack v valstack lparen_depths,
        tokentype lp = LPAREN ->
        parse_loop (lp :: tok :: rest) opstack (v :: valstack) lparen_depths
        = (Raise (ParseError
                    (Msg "expected lparen, intlit, or varref after lparen")),
           rest)).
Proof.
  intros tok Hop. split.
  - intros rest opstack lparen_depths. cbn [parse_loop]. rewrite Hop.
    now operator_kind Hop.
  - intros lp rest opstack v valstack lparen_depths Hlp.
    cbn [parse_loop]. rewrite Hlp, Hop. cbn [TokenType_beq].
    assert (Hguard : operator_after_lparen (LPAREN :: opstack) (v :: valstack)
                       (length (v :: valstack) :: lparen_depths) = true).
    { cbn [operator_after_lparen TokenType_beq andb].
      apply Nat.eqb_refl. }
    rewrite Hguard. now operator_kind Hop.
Qed.

Lemma operator_needs_left_operand_witness :
  parse_expression [tk MINUS; intlit 1; tk EOF]
  = (Raise (ParseError (TwoOperands MINUS)), [intlit 1; tk EOF]) /\
  parse_expression [intlit 2; tk TIMES; tk LPAREN; tk MINUS; intlit 1;
                    tk RPAREN; tk EOF]
  = (Raise (ParseError (Msg "expected lparen, intlit, or varref after lparen")),
     [intlit 1; tk RPAREN; tk EOF]).
Proof.
  destruct (operator_needs_left_operand (tk MINUS) eq_refl) as [Hfirst Hparen].
  split.
  - exact (Hfirst [intlit 1; tk EOF] [] []).
  - exact (Hparen (tk LPAREN) [intlit 1; tk RPAREN; tk EOF] [TIMES]
             (IntLitNode 2) [] [] eq_refl).
Defined.

(* ================================================================= *)
(** ** X8: what may follow a closing parenthesis *)

(** X8.  The follow-token check is made after literals and variable
    references only.  After the RPAREN that closes a group, an operand may
    come directly: for a written-out operator tree [group], a leaf and an
    operator [op], the tokens [group leaf op EOF] are accepted and give
    [BinOpNode op group leaf], the tree of [group op leaf]. *)
Theorem operand_after_group_accepted :
  forall group leaf op eof rest,
    expr_tree group = true ->
    is_leaf group = false ->
    is_leaf leaf = true ->
    operatortypes op = true ->
    tokentype eof = EOF ->
    parse_expression (unparse group ++ leaf_token leaf :: tk op :: eof :: rest)
    = (Ok (BinOpNode op group leaf), eof :: rest).
Proof.
  intros group leaf op eof rest Hexpr Hgroup Hleaf Hop Heof.
  unfold parse_expression.
  rewrite (parse_loop_unparse group Hexpr) by (intros H; congruence).
  rewrite (parse_loop_leaf leaf) by
    (try exact Hleaf; now apply operator_follows_operand).
  cbn [parse_loop tokentype tk]. rewrite Heof.
  destruct op; try discriminate Hop; reflexivity.
Qed.

Lemma operand_after_group_accepted_witness :
  parse_expression
    [tk LPAREN; intlit 1; tk PLUS; intlit 2; tk RPAREN; intlit 3; tk TIMES;
     tk EOF]
  = (Ok (BinOpNode TIMES (BinOpNode PLUS (IntLitNode 1) (IntLitNode 2))
           (IntLitNode 3)), [tk EOF]).
Proof.
  exact (operand_after_group_accepted
           (BinOpNode PLUS (IntLitNode 1) (IntLitNode 2)) (IntLitNode 3)
           TIMES (tk EOF) [] eq_refl eq_refl eq_refl eq_refl eq_refl).
Defined.

(* ================================================================= *)
(** ** Expressions without parentheses *)

(** The operator loop, one iteration spelled with [reduces_before]. *)
Lemma reduce_while_cons :
  forall incoming top below valstack,
    operatortypes top = true ->
    operatortypes incoming = true ->
    reduce_while incoming (top :: below) valstack
    = if reduces_before top incoming
      then match reduce (top :: below) valstack with
           | Ok (_, valstack') => reduce_while incoming below valstack'
           | Raise e => Raise e
           end
      else Ok (top :: below, valstack).
Proof.
  intros incoming top below valstack Htop Hinc.
  destruct top; try discriminate Htop;
    destruct incoming; try discriminate Hinc; reflexivity.
Qed.

(** One iteration of the main loop on an operator token. *)
Lemma parse_loop_operator :
  forall tok rest opstack v valstack lparen_depths opstack' valstack',
    operatortypes (tokentype tok) = true ->
    operator_after_lparen opstack (v :: valstack) lparen_depths = false ->
    reduce_while (tokentype tok) opstack (v :: valstack)
    = Ok (opstack', valstack') ->
    parse_loop (tok :: rest) opstack (v :: valstack) lparen_depths
    = parse_loop rest (tokentype tok :: opstack') valstack' lparen_depths.
Proof.
  intros tok rest opstack v valstack lparen_depths opstack' valstack'
         Hop Hguard Hw.
  cbn [parse_loop]. rewrite Hop, Hguard, Hw.
  now operator_kind Hop.
Qed.

Lemma spine_top :
  forall opstack v valstack,
    spine opstack (v :: valstack) = true ->
    nested_by_tables v = true /\ expr_tree v = true.
Proof.
  intros [|o below] v valstack H; cbn [spine] in H.
  - destruct valstack; [|discriminate].
    now apply andb_true_iff in H.
  - destruct valstack as [|w rest]; [discriminate|].
    repeat (apply andb_true_iff in H as [H ?]). now split.
Qed.

(** The top value of a well-formed state may be replaced by another tree
    that fits the operator at its level. *)
Lemma spine_replace_top :
  forall opstack v v' valstack,
    spine opstack (v :: valstack) = true ->
    nested_by_tables v' = true ->
    expr_tree v' = true ->
    match opstack with
    | o :: _ => right_ok o v' = true
    | [] => True
    end ->
    spine opstack (v' :: valstack) = true.
Proof.
  intros [|o below] v v' valstack H Hn He Hr; cbn [spine] in *.
  - destruct valstack; [|discriminate]. now rewrite Hn, He.
  - destruct valstack as [|w rest]; [discriminate|].
    repeat (apply andb_true_iff in H as [H ?]).
    repeat (apply andb_true_iff; split); assumption.
Qed.

Lemma infix_leaf :
  forall leaf, is_leaf leaf = true -> infix leaf = [leaf_token leaf].
Proof. intros leaf H. destruct leaf; try discriminate; reflexivity. Qed.

(** Folding the top operator keeps the tokens that the stacks stand for. *)
Lemma stack_infix_reduce :
  forall o below r l valstack,
    stack_infix below (BinOpNode o l r :: valstack)
    = stack_infix (o :: below) (r :: l :: valstack).
Proof.
  intros o [|o' below] r l valstack; cbn [stack_infix infix].
  - reflexivity.
  - now rewrite <- app_assoc.
Qed.

(** The operator loop on a well-formed state. *)
Lemma reduce_while_spine :
  forall incoming opstack v valstack,
    operatortypes incoming = true ->
    spine opstack (v :: valstack) = true ->
    left_ok incoming v = true ->
    exists opstack' w valstack',
      reduce_while incoming opstack (v :: valstack)
      = Ok (opstack', w :: valstack') /\
      spine opstack' (w :: valstack') = true /\
      left_ok incoming w = true /\
      match opstack' with
      | o' :: _ => reduces_before o' incoming = false
      | [] => True
      end /\
      stack_infix opstack' (w :: valstack')
      = stack_infix opstack (v :: valstack).
Proof.
  intros incoming opstack. induction opstack as [|o below IH];
    intros v valstack Hinc Hsp Hleft.
  - exists [], v, valstack. now repeat split.
  - pose proof Hsp as Hsp'. cbn [spine] in Hsp'.
    destruct valstack as [|w rest]; [discriminate|].
    repeat (apply andb_true_iff in Hsp' as [Hsp' ?]).
    rewrite reduce_while_cons by assumption.
    destruct (reduces_before o incoming) eqn:Hrb.
    + cbn [reduce].
      assert (Hnew : spine below (BinOpNode o w v :: rest) = true).
      { destruct (spine_top _ _ _ H) as [Hnw Hew].
        apply (spine_replace_top below w); [assumption| | |].
        - cbn [nested_by_tables].
          repeat (apply andb_true_iff; split); assumption.
        - cbn [expr_tree].
          repeat (apply andb_true_iff; split); assumption.
        - destruct below as [|o' below']; [exact I|exact H0]. }
      destruct (IH (BinOpNode o w v) rest Hinc Hnew Hrb)
        as (opstack' & w' & valstack' & Hw & Hsp2 & Hl2 & Htop & Hinf).
      exists opstack', w', valstack'. repeat split; try assumption.
      now rewrite Hinf, stack_infix_reduce.
    + exists (o :: below), v, (w :: rest). now repeat split.
Qed.

(** The drain loop on a well-formed state. *)
Lemma finish_spine :
  forall opstack v valstack,
    spine opstack (v :: valstack) = true ->
    exists node,
      finish opstack (v :: valstack) = Ok node /\
      nested_by_tables node = true /\
      expr_tree node = true /\
      infix node = stack_infix opstack (v :: valstack).
Proof.
  assert (Hd : forall opstack v valstack,
             spine opstack (v :: valstack) = true ->
             exists node,
               drain opstack (v :: valstack) = Ok [node] /\
               nested_by_tables node = true /\
               expr_tree node = true /\
               infix node = stack_infix opstack (v :: valstack)).
  { induction opstack as [|o below IH]; intros v valstack Hsp.
    - pose proof Hsp as Hsp'. cbn [spine] in Hsp'.
      destruct valstack; [|discriminate].
      apply andb_true_iff in Hsp' as [Hn He].
      exists v. now repeat split.
    - pose proof Hsp as Hsp'. cbn [spine] in Hsp'.
      destruct valstack as [|w rest]; [discriminate|].
      repeat (apply andb_true_iff in Hsp' as [Hsp' ?]).
      cbn [drain reduce].
      replace (TokenType_beq o LPAREN) with false by (now destruct o).
      assert (Hnew : spine below (BinOpNode o w v :: rest) = true).
      { destruct (spine_top _ _ _ H) as [Hnw Hew].
        apply (spine_replace_top below w); [assumption| | |].
        - cbn [nested_by_tables].
          repeat (apply andb_true_iff; split); assumption.
        - cbn [expr_tree].
          repeat (apply andb_true_iff; split); assumption.
        - destruct below as [|o' below']; [exact I|exact H0]. }
      destruct (IH _ _ Hnew) as (node & Hdr & Hn & He & Hinf).
      exists node. repeat split; try assumption.
      now rewrite Hinf, stack_infix_reduce. }
  intros opstack v valstack Hsp.
  destruct (Hd _ _ _ Hsp) as (node & Hdr & Hn & He & Hinf).
  exists node. unfold finish. rewrite Hdr. now repeat split.
Qed.

Lemma operator_after_lparen_no_depth :
  forall opstack valstack,
    operator_after_lparen opstack valstack [] = false.
Proof.
  intros [|top below] valstack; [reflexivity|].
  cbn [operator_after_lparen]. apply andb_false_r.
Qed.

(** The main loop on the rest of an expression without parentheses. *)
Lemma parse_loop_flat :
  forall steps opstack v valstack eof rest,
    flat_steps steps ->
    tokentype eof = EOF ->
    is_leaf v = true ->
    spine opstack (v :: valstack) = true ->
    exists node,
      parse_loop
        (flat_map (fun s => [tk (fst s); leaf_token (snd s)]) steps
           ++ eof :: rest)
        opstack (v :: valstack) []
      = (Ok node, eof :: rest) /\
      nested_by_tables node = true /\
      expr_tree node = true /\
      infix node
      = stack_infix opstack (v :: valstack)
          ++ flat_map (fun s => [tk (fst s); leaf_token (snd s)]) steps.
Proof.
  induction steps as [|[o x] steps IH];
    intros opstack v valstack eof rest Hsteps Heof Hleaf Hsp.
  - destruct (finish_spine _ _ _ Hsp) as (node & Hfin & Hn & He & Hinf).
    exists node. cbn [flat_map app parse_loop]. rewrite Heof.
    cbn [TokenType_beq]. rewrite Hfin, app_nil_r. now repeat split.
  - inversion Hsteps as [|? ? [Hop Hx] Hsteps']; subst.
    cbn [fst snd] in Hop, Hx.
    assert (Hleft : left_ok o v = true)
      by (destruct v; try discriminate; reflexivity).
    destruct (reduce_while_spine o opstack v valstack Hop Hsp Hleft)
      as (opstack' & w & valstack' & Hw & Hsp2 & Hl2 & Htop & Hinf).
    assert (Hnext : exists next more,
               flat_map (fun s => [tk (fst s); leaf_token (snd s)]) steps
                 ++ eof :: rest = next :: more /\
               follows_operand (tokentype next) = true).
    { destruct steps as [|[o2 x2] steps2].
      - exists eof, rest. split; [reflexivity|]. now rewrite Heof.
      - inversion Hsteps' as [|? ? [Hop2 _] _]; subst.
        eexists; eexists; split; [reflexivity|].
        now apply operator_follows_operand. }
    destruct Hnext as (next & more & Hlist & Hfol).
    assert (Hsp3 : spine (o :: opstack') (x :: w :: valstack') = true).
    { destruct (spine_top _ _ _ Hsp2) as [Hnw Hew].
      cbn [spine]. rewrite Hop, Hl2, Hsp2.
      replace (nested_by_tables x) with true
        by (destruct x; try discriminate; reflexivity).
      replace (expr_tree x) with true
        by (destruct x; try discriminate; reflexivity).
      replace (right_ok o x) with true
        by (destruct x; try discriminate; reflexivity).
      destruct opstack' as [|o' below']; [reflexivity|].
      now rewrite Htop. }
    destruct (IH (o :: opstack') x (w :: valstack') eof rest Hsteps' Heof Hx
                Hsp3) as (node & Hrun & Hn & He & Hinfix).
    exists node. repeat split; try assumption.
    + cbn [flat_map app fst snd].
      rewrite (parse_loop_operator (tk o) _ _ _ _ _ _ _ Hop
                 (operator_after_lparen_no_depth _ _) Hw).
      rewrite Hlist. cbn [tokentype tk].
      rewrite (parse_loop_leaf x next more _ _ _ Hx Hfol).
      now rewrite <- Hlist.
    + rewrite Hinfix. cbn [stack_infix flat_map fst snd app].
      rewrite Hinf, (infix_leaf x Hx). now rewrite <- app_assoc.
Qed.

(** ** The well-nested tree of a token sequence is unique *)

(** Four facts about [reduces_before] on operator kinds, read off the two
    tables. *)
Lemma reduces_before_chain :
  forall a b c,
    operatortypes a = true -> operatortypes b = true ->
    operatortypes c = true ->
    (reduces_before a b = true -> reduces_before b c = true ->
     reduces_before a c = true) /\
    (reduces_before b a = false -> reduces_before b c = true ->
     reduces_before a c = true) /\
    (reduces_before a b = true -> reduces_before c b = false ->
     reduces_before c a = false) /\
    (reduces_before b a = false -> reduces_before c b = false ->
     reduces_before c a = false).
Proof.
  intros a b c Ha Hb Hc.
  destruct a; try discriminate Ha; destruct b; try discriminate Hb;
    destruct c; try discriminate Hc; cbv;
    repeat split; intros; congruence.
Qed.

Lemma infix_operator :
  forall node o,
    expr_tree node = true -> In (tk o) (infix node) ->
    operatortypes o = true.
Proof.
  induction node as [| | | | |op l IHl r IHr]; intros o He Hin;
    try discriminate.
  - destruct Hin as [E|[]]. discriminate E.
  - destruct Hin as [E|[]]. discriminate E.
  - cbn [expr_tree] in He.
    apply andb_true_iff in He as [He Hr].
    apply andb_true_iff in He as [Hop Hl].
    cbn [infix] in Hin. apply in_app_or in Hin as [Hin|[E|Hin]].
    + now apply IHl.
    + inversion E; subst. exact Hop.
    + now apply IHr.
Qed.

(** In a well-nested tree fit to be a left operand of [op], every operator
    is folded before [op] is pushed; in one fit to be a right operand, none
    makes [op] fold. *)
Lemma nested_operators :
  forall node,
    expr_tree node = true ->
    nested_by_tables node = true ->
    forall op,
      operatortypes op = true ->
      (left_ok op node = true ->
       forall o, In (tk o) (infix node) -> reduces_before o op = true) /\
      (right_ok op node = true ->
       forall o, In (tk o) (infix node) -> reduces_before op o = false).
Proof.
  induction node as [| | | | |root l IHl r IHr]; intros He Hn op Hop;
    try discriminate.
  - split; intros _ o [E|[]]; discriminate E.
  - split; intros _ o [E|[]]; discriminate E.
  - pose proof He as He'. cbn [expr_tree] in He'.
    apply andb_true_iff in He' as [He' Her].
    apply andb_true_iff in He' as [Hroot Hel].
    cbn [nested_by_tables] in Hn.
    repeat (apply andb_true_iff in Hn as [Hn ?]).
    destruct (IHl Hel H0 root Hroot) as [Hleft _].
    destruct (IHr Her H root Hroot) as [_ Hright].
    specialize (Hleft Hn). specialize (Hright H1).
    assert (Hcases : forall o,
               In (tk o) (infix (BinOpNode root l r)) ->
               operatortypes o = true /\
               (o = root \/ reduces_before o root = true
                \/ reduces_before root o = false)).
    { intros o Hin. split; [now apply (infix_operator _ _ He Hin)|].
      cbn [infix] in Hin. apply in_app_or in Hin as [Hin|[E|Hin]].
      - right. left. now apply Hleft.
      - left. now inversion E.
      - right. right. now apply Hright. }
    split.
    + cbn [left_ok]. intros Hrb o Hin.
      destruct (Hcases o Hin) as [Ho [->|[Hl|Hr]]]; [exact Hrb| |].
      * now apply (proj1 (reduces_before_chain o root op Ho Hroot Hop)).
      * now apply (proj1 (proj2 (reduces_before_chain o root op Ho Hroot Hop))).
    + cbn [right_ok]. intros Hrb o Hin. apply negb_true_iff in Hrb.
      destruct (Hcases o Hin) as [Ho [->|[Hl|Hr]]]; [exact Hrb| |].
      * now apply (proj1 (proj2 (proj2
                 (reduces_before_chain o root op Ho Hroot Hop)))).
      * now apply (proj2 (proj2 (proj2
                 (reduces_before_chain o root op Ho Hroot Hop)))).
Qed.

Lemma app_cons_split :
  forall (A : Type) (xs xs' ys ys' : list A) (a b : A),
    xs ++ a :: ys = xs' ++ b :: ys' ->
    (xs = xs' /\ a = b /\ ys = ys') \/
    (In a xs' /\ In b ys) \/
    (In b xs /\ In a ys').
Proof.
  intros A. induction xs as [|x xs IH]; intros [|x' xs'] ys ys' a b E;
    cbn [app] in E; inversion E; subst.
  - now left.
  - right. left. split; [now left|]. apply in_or_app. right. now left.
  - right. right. split; [now left|]. apply in_or_app. right. now left.
  - destruct (IH _ _ _ _ _ H1) as [(-> & -> & ->)|[[Ha Hb]|[Hb Ha]]].
    + now left.
    + right. left. split; [now right|exact Hb].
    + right. right. split; [now right|exact Ha].
Qed.

Lemma infix_not_nil :
  forall node, infix node <> [].
Proof.
  destruct node; cbn [infix]; try discriminate.
  intros E. symmetry in E. now apply app_cons_not_nil in E.
Qed.

Lemma nested_unique :
  forall t1,
    expr_tree t1 = true -> nested_by_tables t1 = true ->
    forall t2,
      expr_tree t2 = true -> nested_by_tables t2 = true ->
      infix t1 = infix t2 ->
      t1 = t2.
Proof.
  induction t1 as [| | | | |op1 l1 IHl r1 IHr]; intros He1 Hn1;
    try discriminate.
  - intros [| | | | |op2 l2 r2] He2 Hn2 E; try discriminate.
    + now inversion E.
    + exfalso. cbn [infix leaf_token] in E.
      destruct (infix l2) as [|x m] eqn:El; [now apply (infix_not_nil l2)|].
      cbn [app] in E. inversion E as [[Hx Hm]].
      now apply app_cons_not_nil in Hm.
  - intros [| | | | |op2 l2 r2] He2 Hn2 E; try discriminate.
    + now inversion E.
    + exfalso. cbn [infix leaf_token] in E.
      destruct (infix l2) as [|x m] eqn:El; [now apply (infix_not_nil l2)|].
      cbn [app] in E. inversion E as [[Hx Hm]].
      now apply app_cons_not_nil in Hm.
  - pose proof He1 as He1'. cbn [expr_tree] in He1'.
    apply andb_true_iff in He1' as [He1' Her1].
    apply andb_true_iff in He1' as [Hop1 Hel1].
    pose proof Hn1 as Hn1'. cbn [nested_by_tables] in Hn1'.
    repeat (apply andb_true_iff in Hn1' as [Hn1' ?]).
    intros [| | | | |op2 l2 r2] He2 Hn2 E; try discriminate.
    + exfalso. cbn [infix leaf_token] in E.
      destruct (infix l1) as [|x m] eqn:El; [now apply (infix_not_nil l1)|].
      cbn [app] in E. inversion E as [[Hx Hm]].
      symmetry in Hm. now apply app_cons_not_nil in Hm.
    + exfalso. cbn [infix leaf_token] in E.
      destruct (infix l1) as [|x m] eqn:El; [now apply (infix_not_nil l1)|].
      cbn [app] in E. inversion E as [[Hx Hm]].
      symmetry in Hm. now apply app_cons_not_nil in Hm.
    + pose proof He2 as He2'. cbn [expr_tree] in He2'.
      apply andb_true_iff in He2' as [He2' Her2].
      apply andb_true_iff in He2' as [Hop2 Hel2].
      pose proof Hn2 as Hn2'. cbn [nested_by_tables] in Hn2'.
      repeat (apply andb_true_iff in Hn2' as [Hn2' ?]).
      cbn [infix] in E.
      destruct (app_cons_split _ _ _ _ _ _ _ E)
        as [(El & Eop & Er)|[[Hin1 Hin2]|[Hin2 Hin1]]].
      * inversion Eop; subst op2.
        now rewrite (IHl Hel1 H0 l2 Hel2 H3 El), (IHr Her1 H r2 Her2 H2 Er).
      * exfalso.
        pose proof (proj1 (nested_operators l2 Hel2 H3 op2 Hop2) Hn2' op1 Hin1)
          as Htrue.
        pose proof (proj2 (nested_operators r1 Her1 H op1 Hop1) H1 op2 Hin2)
          as Hfalse.
        congruence.
      * exfalso.
        pose proof (proj1 (nested_operators l1 Hel1 H0 op1 Hop1) Hn1' op2 Hin2)
          as Htrue.
        pose proof (proj2 (nested_operators r2 Her2 H2 op2 Hop2) H4 op1 Hin1)
          as Hfalse.
        congruence.
Qed.

(* ================================================================= *)
(** ** X9: expressions without parentheses parse as the tables say *)

(** X9.  Take any expression without parentheses: a leaf followed by any
    number of (operator, leaf) steps, then an EOF token.  [parse_expression]
    accepts it and stops in front of the EOF.  The tree it returns reads, in
    infix order, as the input; it is nested as [precedence] and [leftassoc]
    demand at every operator node; and it is the only expression tree with
    these two properties. *)
Theorem flat_expression_parse :
  forall first steps eof rest,
    is_leaf first = true ->
    flat_steps steps ->
    tokentype eof = EOF ->
    exists node,
      parse_expression (flat_tokens first steps ++ eof :: rest)
      = (Ok node, eof :: rest) /\
      infix node = flat_tokens first steps /\
      nested_by_tables node = true /\
      expr_tree node = true /\
      (forall other,
          expr_tree other = true ->
          nested_by_tables other = true ->
          infix other = flat_tokens first steps ->
          other = node).
Proof.
  intros first steps eof rest Hfirst Hsteps Heof.
  assert (Hsp : spine [] [first] = true).
  { cbn [spine]. destruct first; try discriminate; reflexivity. }
  destruct (parse_loop_flat steps [] first [] eof rest Hsteps Heof Hfirst Hsp)
    as (node & Hrun & Hn & He & Hinf).
  assert (Hinfix : infix node = flat_tokens first steps).
  { rewrite Hinf. cbn [stack_infix]. now rewrite (infix_leaf first Hfirst). }
  exists node. repeat split; try assumption.
  - unfold parse_expression, flat_tokens. cbn [app].
    assert (Hnext : exists next more,
               flat_map (fun s => [tk (fst s); leaf_token (snd s)]) steps
                 ++ eof :: rest = next :: more /\
               follows_operand (tokentype next) = true).
    { destruct steps as [|[o2 x2] steps2].
      - exists eof, rest. split; [reflexivity|]. now rewrite Heof.
      - inversion Hsteps as [|? ? [Hop2 _] _]; subst.
        eexists; eexists; split; [reflexivity|].
        now apply operator_follows_operand. }
    destruct Hnext as (next & more & Hlist & Hfol).
    rewrite Hlist, (parse_loop_leaf first next more _ _ _ Hfirst Hfol).
    now rewrite <- Hlist.
  - intros other Heo Hno Hio. symmetry.
    apply nested_unique; try assumption. congruence.
Qed.

Lemma flat_expression_parse_witness :
  exists node,
    parse_expression
      [intlit 1; tk MINUS; varref "y"; tk TIMES; intlit 3; tk EXPONENT;
       intlit 4; tk EXPONENT; intlit 5; tk PLUS; intlit 6; tk EOF]
    = (Ok node, [tk EOF]) /\
    nested_by_tables node = true.
Proof.
  destruct (flat_expression_parse
              (IntLitNode 1)
              [(MINUS, VarRefNode "y"); (TIMES, IntLitNode 3);
               (EXPONENT, IntLitNode 4); (EXPONENT, IntLitNode 5);
               (PLUS, IntLitNode 6)]
              (tk EOF) [] eq_refl
              ltac:(repeat constructor) eq_refl)
    as (node & Hrun & _ & Hn & _).
  exists node. split; [exact Hrun|exact Hn].
Defined.

(* ================================================================= *)
(** ** X10: a pair of parentheses around a single operand or group *)

(** X10.  From any state of the stacks, a pair of parentheses whose content
    is one written-out expression tree, a single leaf or a single
    parenthesised group, is rejected at its RPAREN with "expected lparen,
    intlit, or varref after lparen": no [reduce] happens between the LPAREN
    marker and the RPAREN.  The RPAREN has been read, what follows it has
    not. *)
Theorem redundant_parentheses_rejected :
  forall node rest opstack valstack lparen_depths,
    expr_tree node = true ->
    parse_loop (tk LPAREN :: unparse node ++ tk RPAREN :: rest)
      opstack valstack lparen_depths
    = (Raise (ParseError
                (Msg "expected lparen, intlit, or varref after lparen")),
       rest).
Proof.
  intros node rest opstack valstack lparen_depths Hexpr.
  cbn [parse_loop tokentype tk TokenType_beq].
  rewrite (parse_loop_unparse node Hexpr)
    by (intros _; eexists; eexists; split; reflexivity).
  reflexivity.
Qed.

Lemma redundant_parentheses_rejected_witness :
  parse_expression
    [tk LPAREN; tk LPAREN; varref "a"; tk TIMES; intlit 2; tk RPAREN;
     tk RPAREN; tk PLUS; intlit 1; tk EOF]
  = (Raise (ParseError (Msg "expected lparen, intlit, or varref after lparen")),
     [tk PLUS; intlit 1; tk EOF]).
Proof.
  exact (redundant_parentheses_rejected
           (BinOpNode TIMES (VarRefNode "a") (IntLitNode 2))
           [tk PLUS; intlit 1; tk EOF] [] [] [] eq_refl).
Defined.

(* ================================================================= *)
(** ** X11: tokens that the expression loop rejects on sight *)

(** X11.  From any state of the stacks:
    - a VARREF token, with or without its lexeme, followed by a token that is
      no operator, RPAREN or EOF raises "expected operator or rparen after
      variable reference", the VARREF read and the next token not;
    - an INTLIT token without its value raises "malformed INTLIT token"
      whatever follows, the token read;
    - a PRINT, INTDEC or ASSIGN token raises "unexpected token in
      expression" with that token, which stays unread;
    - with EOF as the first token of the expression (both stacks empty) the
      failure is "expression did not reduce to one AST". *)
Theorem expression_tokens_rejected :
  (forall tok next rest opstack valstack lparen_depths,
      tokentype tok = VARREF ->
      follows_operand (tokentype next) = false ->
      parse_loop (tok :: next :: rest) opstack valstack lparen_depths
      = (Raise (ParseError
                  (Msg "expected operator or rparen after variable reference")),
         next :: rest)) /\
  (forall tok rest opstack valstack lparen_depths,
      tokentype tok = INTLIT ->
      intvalue tok = None ->
      parse_loop (tok :: rest) opstack valstack lparen_depths
      = (Raise (ParseError (Msg "malformed INTLIT token")), rest)) /\
  (forall tok rest opstack valstack lparen_depths,
      tokentype tok = PRINT \/ tokentype tok = INTDEC
      \/ tokentype tok = ASSIGN ->
      parse_loop (tok :: rest) opstack valstack lparen_depths
      = (Raise (ParseError (UnexpectedInExpression tok)), tok :: rest)) /\
  (forall eof rest,
      tokentype eof = EOF ->
      parse_expression (eof :: rest)
      = (Raise (ParseError (Msg "expression did not reduce to one AST")),
         eof :: rest)).
Proof.
  repeat split.
  - intros tok next rest opstack valstack lparen_depths Hk Hf.
    cbn [parse_loop]. now rewrite Hk, Hf.
  - intros tok rest opstack valstack lparen_depths Hk Hv.
    cbn [parse_loop]. now rewrite Hk, Hv.
  - intros tok rest opstack valstack lparen_depths [Hk|[Hk|Hk]];
      cbn [parse_loop]; now rewrite Hk.
  - intros eof rest Hk. unfold parse_expression. cbn [parse_loop].
    now rewrite Hk.
Qed.

Lemma expression_tokens_rejected_witness :
  parse_expression [varref "a"; tk LPAREN; intlit 1; tk EOF]
  = (Raise (ParseError
              (Msg "expected operator or rparen after variable reference")),
     [tk LPAREN; intlit 1; tk EOF]) /\
  parse_expression [intlit 1; tk PLUS; tk INTLIT; tk EOF]
  = (Raise (ParseError (Msg "malformed INTLIT token")), [tk EOF]) /\
  parse_expression [intlit 1; tk PLUS; tk ASSIGN; tk EOF]
  = (Raise (ParseError (UnexpectedInExpression (tk ASSIGN))),
     [tk ASSIGN; tk EOF]) /\
  parse_expression [tk EOF]
  = (Raise (ParseError (Msg "expression did not reduce to one AST")),
     [tk EOF]).
Proof.
  destruct expression_tokens_rejected as (Hvar & Hint & Hbad & Hempty).
  split; [|split; [|split]].
  - exact (Hvar (varref "a") (tk LPAREN) [intlit 1; tk EOF] [] [] []
             eq_refl eq_refl).
  - exact (Hint (tk INTLIT) [tk EOF] [PLUS] [IntLitNode 1] []
             eq_refl eq_refl).
  - exact (Hbad (tk ASSIGN) [tk EOF] [PLUS] [IntLitNode 1] []
             (or_intror (or_intror eq_refl))).
  - exact (Hempty (tk EOF) [] eq_refl).
Defined.

(* ================================================================= *)
(** ** X12: how [parse] fails before the trailing EOF *)

(** X12.  The failures of the statement dispatcher:
    - a first token that is not PRINT, INTDEC or VARREF raises "expected
      ... PRINT, ... INTDEC, or ... VARREF; got ..." and nothing is read;
    - a PRINT or INTDEC token without its name raises "malformed PRINT
      token" or "malformed INTDEC token" after the token has been read;
    - a VARREF token followed by a token that is not ASSIGN raises "expected
      ASSIGN but found ...", the VARREF read and the other token not;
    - a failure of [parse_expression] on the right-hand side is passed on
      unchanged, also when the VARREF token has no lexeme. *)
Theorem parse_failures :
  (forall t rest,
      tokentype t <> PRINT -> tokentype t <> INTDEC ->
      tokentype t <> VARREF ->
      parse (t :: rest)
      = (Raise (ParseError (ExpectedStatement (tokentype t))), t :: rest)) /\
  (forall t rest,
      name t = None ->
      (tokentype t = PRINT ->
       parse (t :: rest)
       = (Raise (ParseError (Msg "malformed PRINT token")), rest)) /\
      (tokentype t = INTDEC ->
       parse (t :: rest)
       = (Raise (ParseError (Msg "malformed INTDEC token")), rest))) /\
  (forall lhs next rest,
      tokentype lhs = VARREF ->
      tokentype next <> ASSIGN ->
      parse (lhs :: next :: rest)
      = (Raise (ParseError (ExpectedButFound ASSIGN (tokentype next))),
         next :: rest)) /\
  (forall lhs asg rhs e ts',
      tokentype lhs = VARREF ->
      tokentype asg = ASSIGN ->
      parse_expression rhs = (Raise e, ts') ->
      parse (lhs :: asg :: rhs) = (Raise e, ts')).
Proof.
  repeat split.
  - intros t rest Hp Hd Hv.
    apply TokenType_beq_neq in Hp, Hd, Hv.
    unfold parse, bind, peek, read, raise. now rewrite Hp, Hd, Hv.
  - intros Hk. unfold parse, bind, peek, read, raise.
    rewrite Hk. cbn [TokenType_beq]. now rewrite H.
  - intros Hk. unfold parse, bind, peek, read, raise.
    rewrite Hk. cbn [TokenType_beq]. now rewrite H.
  - intros lhs next rest Hk Hne.
    apply TokenType_beq_neq in Hne.
    unfold parse, bind, peek, read. rewrite Hk. cbn [TokenType_beq].
    unfold expect, bind, peek, read, raise. now rewrite Hne.
  - intros lhs asg rhs e ts' Hk Hasg Hrhs.
    unfold parse, bind, peek, read. rewrite Hk. cbn [TokenType_beq].
    unfold expect, bind, peek, read, raise.
    rewrite Hasg. cbn [TokenType_beq]. now rewrite Hrhs.
Qed.

Lemma parse_failures_witness :
  parse [intlit 1; tk EOF]
  = (Raise (ParseError (ExpectedStatement INTLIT)), [intlit 1; tk EOF]) /\
  parse [tk PRINT; tk EOF]
  = (Raise (ParseError (Msg "malformed PRINT token")), [tk EOF]) /\
  parse [varref "x"; intlit 1; tk EOF]
  = (Raise (ParseError (ExpectedButFound ASSIGN INTLIT)),
     [intlit 1; tk EOF]) /\
  parse [varref_absent; tk ASSIGN; intlit 1; intlit 2; tk EOF]
  = (Raise (ParseError (Msg "expected operator or rparen after int literal")),
     [intlit 2; tk EOF]).
Proof.
  destruct parse_failures as (Hstart & Hname & Hasg & Hrhs).
  split; [|split; [|split]].
  - apply (Hstart (intlit 1) [tk EOF]); discriminate.
  - exact (proj1 (Hname (tk PRINT) [tk EOF] eq_refl) eq_refl).
  - apply (Hasg (varref "x") (intlit 1) [tk EOF] eq_refl). discriminate.
  - exact (Hrhs varref_absent (tk ASSIGN) [intlit 1; intlit 2; tk EOF]
             _ [intlit 2; tk EOF] eq_refl eq_refl eq_refl).
Defined.
